(** * pg_pathman: transaction-level lock helpers and range search

    A shallow embedding of [src/xact_handling.c] (the lock coordinator of
    pg_pathman) and of the declarations of [src/pathman.h] it relies on.

    The C functions run inside one PostgreSQL backend and talk to the
    host's heavyweight lock manager.  The backend's process globals
    ([MyDatabaseId], [XactIsoLevel]) are collected in a [Backend] record,
    the lock manager's shared table is an explicit state, and every call
    into the lock manager is recorded in a trace, so that statements about
    what a probe did to the locks can be read off the final state.  The
    range search declared in [pathman.h] closes the definitions. *)

From Stdlib Require Import ZArith Lia.
From stdpp Require Import gmap list.
From Equations Require Import Equations.

Local Open Scope Z_scope.

(** ** Host types and constants *)

(** [Oid] is the host's [unsigned int]; [InvalidOid] is its zero. *)
Definition Oid : Type := Z.
Definition InvalidOid : Oid := 0.

(** [LOCKMODE] is the host's [int]; the eight table-level lock strengths
    are numbered as in the host's [lockdefs.h]. *)
Definition LOCKMODE : Type := Z.
Definition NoLock : LOCKMODE := 0.
Definition AccessShareLock : LOCKMODE := 1.
Definition RowShareLock : LOCKMODE := 2.
Definition RowExclusiveLock : LOCKMODE := 3.
Definition ShareUpdateExclusiveLock : LOCKMODE := 4.
Definition ShareLock : LOCKMODE := 5.
Definition ShareRowExclusiveLock : LOCKMODE := 6.
Definition ExclusiveLock : LOCKMODE := 7.
Definition AccessExclusiveLock : LOCKMODE := 8.

(** Transaction isolation levels of the host's [access/xact.h]. *)
Definition XACT_READ_UNCOMMITTED : Z := 0.
Definition XACT_READ_COMMITTED : Z := 1.
Definition XACT_REPEATABLE_READ : Z := 2.
Definition XACT_SERIALIZABLE : Z := 3.

(** The host's [LOCKTAG]: the identity of a lockable object. *)
Record LOCKTAG : Type := mkLOCKTAG {
  locktag_field1 : Oid;
  locktag_field2 : Oid;
  locktag_field3 : Z;
  locktag_field4 : Z;
  locktag_type : Z;
  locktag_lockmethodid : Z
}.

Definition LOCKTAG_RELATION : Z := 0.
Definition DEFAULT_LOCKMETHOD : Z := 1.

(** The host macro [SET_LOCKTAG_RELATION(locktag, dboid, reloid)]. *)
Definition SET_LOCKTAG_RELATION (dboid reloid : Oid) : LOCKTAG :=
  {| locktag_field1 := dboid;
     locktag_field2 := reloid;
     locktag_field3 := 0;
     locktag_field4 := 0;
     locktag_type := LOCKTAG_RELATION;
     locktag_lockmethodid := DEFAULT_LOCKMETHOD |}.

#[global] Instance LOCKTAG_eq_dec : EqDecision LOCKTAG.
Proof. solve_decision. Defined.

#[global] Instance LOCKTAG_countable : Countable LOCKTAG.
Proof.
  refine (inj_countable'
    (fun t => (locktag_field1 t, locktag_field2 t, locktag_field3 t,
               locktag_field4 t, locktag_type t, locktag_lockmethodid t))
    (fun '(a, b, c, d, e, f) => mkLOCKTAG a b c d e f) _).
  by intros [].
Defined.

(** The process globals the C code reads: the backend's identity in the
    lock manager, the database it is connected to, and the isolation level
    of its current transaction. *)
Record Backend : Type := mkBackend {
  MyProcPid : Z;
  MyDatabaseId : Oid;
  XactIsoLevel : Z
}.

(** The result codes of the host's [LockAcquire]. *)
Inductive LockAcquireResult : Type :=
| LOCKACQUIRE_NOT_AVAIL
| LOCKACQUIRE_OK
| LOCKACQUIRE_ALREADY_HELD.

#[global] Instance LockAcquireResult_eq_dec : EqDecision LockAcquireResult.
Proof. solve_decision. Defined.

(** ** [pathman.h] *)

(** [search_rangerel_result], with the numbering of the C enum. *)
Inductive search_rangerel_result : Type :=
| SEARCH_RANGEREL_OUT_OF_RANGE
| SEARCH_RANGEREL_GAP
| SEARCH_RANGEREL_FOUND.

#[global] Instance search_rangerel_result_eq_dec : EqDecision search_rangerel_result.
Proof. solve_decision. Defined.

Definition search_rangerel_result_code (r : search_rangerel_result) : Z :=
  match r with
  | SEARCH_RANGEREL_OUT_OF_RANGE => 0
  | SEARCH_RANGEREL_GAP => 1
  | SEARCH_RANGEREL_FOUND => 2
  end.

(** ** The host lock manager *)

(** The host's conflict table ([LockConflicts] of its [lock.c], reached
    through [storage/lmgr.h]; it is not part of the repository): one
    bitmask per lock strength, bit [m] set when strength [m] conflicts. *)
Definition LOCKBIT_ON (lockmode : LOCKMODE) : Z := Z.shiftl 1 lockmode.

Definition LockConflicts (lockmode : LOCKMODE) : Z :=
  if lockmode =? AccessShareLock then
    LOCKBIT_ON AccessExclusiveLock
  else if lockmode =? RowShareLock then
    Z.lor (LOCKBIT_ON ExclusiveLock) (LOCKBIT_ON AccessExclusiveLock)
  else if lockmode =? RowExclusiveLock then
    Z.lor (LOCKBIT_ON ShareLock)
      (Z.lor (LOCKBIT_ON ShareRowExclusiveLock)
         (Z.lor (LOCKBIT_ON ExclusiveLock) (LOCKBIT_ON AccessExclusiveLock)))
  else if lockmode =? ShareUpdateExclusiveLock then
    Z.lor (LOCKBIT_ON ShareUpdateExclusiveLock)
      (Z.lor (LOCKBIT_ON ShareLock)
         (Z.lor (LOCKBIT_ON ShareRowExclusiveLock)
            (Z.lor (LOCKBIT_ON ExclusiveLock) (LOCKBIT_ON AccessExclusiveLock))))
  else if lockmode =? ShareLock then
    Z.lor (LOCKBIT_ON RowExclusiveLock)
      (Z.lor (LOCKBIT_ON ShareUpdateExclusiveLock)
         (Z.lor (LOCKBIT_ON ShareRowExclusiveLock)
            (Z.lor (LOCKBIT_ON ExclusiveLock) (LOCKBIT_ON AccessExclusiveLock))))
  else if lockmode =? ShareRowExclusiveLock then
    Z.lor (LOCKBIT_ON RowExclusiveLock)
      (Z.lor (LOCKBIT_ON ShareUpdateExclusiveLock)
         (Z.lor (LOCKBIT_ON ShareLock)
            (Z.lor (LOCKBIT_ON ShareRowExclusiveLock)
               (Z.lor (LOCKBIT_ON ExclusiveLock) (LOCKBIT_ON AccessExclusiveLock)))))
  else if lockmode =? ExclusiveLock then
    Z.lor (LOCKBIT_ON RowShareLock)
      (Z.lor (LOCKBIT_ON RowExclusiveLock)
         (Z.lor (LOCKBIT_ON ShareUpdateExclusiveLock)
            (Z.lor (LOCKBIT_ON ShareLock)
               (Z.lor (LOCKBIT_ON ShareRowExclusiveLock)
                  (Z.lor (LOCKBIT_ON ExclusiveLock) (LOCKBIT_ON AccessExclusiveLock))))))
  else if lockmode =? AccessExclusiveLock then
    Z.lor (LOCKBIT_ON AccessShareLock)
      (Z.lor (LOCKBIT_ON RowShareLock)
         (Z.lor (LOCKBIT_ON RowExclusiveLock)
            (Z.lor (LOCKBIT_ON ShareUpdateExclusiveLock)
               (Z.lor (LOCKBIT_ON ShareLock)
                  (Z.lor (LOCKBIT_ON ShareRowExclusiveLock)
                     (Z.lor (LOCKBIT_ON ExclusiveLock) (LOCKBIT_ON AccessExclusiveLock)))))))
  else 0.

(** The host's [DoLockModesConflict]. *)
Definition DoLockModesConflict (mode1 mode2 : LOCKMODE) : bool :=
  negb (Z.land (LockConflicts mode1) (LOCKBIT_ON mode2) =? 0).

(** The lock manager's table: how many times each backend holds each
    strength on each object.  An entry exists exactly while the count is
    positive, which is what the [positive] value type says. *)
Definition LockKey : Type := Z * LOCKTAG * LOCKMODE.

Definition lock_key (me : Backend) (tag : LOCKTAG) (lockmode : LOCKMODE) : LockKey :=
  (MyProcPid me, tag, lockmode).

(** One call into the lock manager, as the trace records it. *)
Inductive LockEvent : Type :=
| EvLockAcquire (pid : Z) (tag : LOCKTAG) (lockmode : LOCKMODE)
    (dontWait : bool) (res : LockAcquireResult)
| EvLockRelease (pid : Z) (tag : LOCKTAG) (lockmode : LOCKMODE) (ok : bool).

Record World : Type := mkWorld {
  lock_table : gmap LockKey positive;
  lock_trace : list LockEvent
}.

(** A call either returns a value in a new world, or the calling process
    is put to sleep waiting for a lock. *)
Inductive Outcome (A : Type) : Type :=
| Returned (a : A) (w : World)
| Suspended.
Arguments Returned {A} a w.
Arguments Suspended {A}.

Definition M (A : Type) : Type := World -> Outcome A.

#[global] Instance M_ret : MRet M := fun A (a : A) w => Returned a w.

#[global] Instance M_bind : MBind M := fun A B (k : A -> M B) (c : M A) w =>
  match c w with
  | Returned a w' => k a w'
  | Suspended => Suspended
  end.

(** The entry [k] of the table belongs to a backend other than [pid] and
    is, on [tag], a strength that conflicts with [lockmode]. *)
Definition blocks (pid : Z) (tag : LOCKTAG) (lockmode : LOCKMODE)
    (k : LockKey) : Prop :=
  k.1.1 ≠ pid ∧ k.1.2 = tag ∧ DoLockModesConflict lockmode k.2 = true.

#[global] Instance blocks_dec pid tag lockmode k :
  Decision (blocks pid tag lockmode k).
Proof. unfold blocks. apply _. Defined.

(** Would a request of [pid] for [lockmode] on [tag] have to wait? *)
Definition conflicts_with_others (t : gmap LockKey positive)
    (pid : Z) (tag : LOCKTAG) (lockmode : LOCKMODE) : bool :=
  negb (bool_decide
          (map_Forall (fun k (_ : positive) => ¬ blocks pid tag lockmode k) t)).

(** The world after a call: the new table, and the call appended to the
    trace. *)
Definition log (e : LockEvent) (t : gmap LockKey positive) (w : World) : World :=
  {| lock_table := t; lock_trace := lock_trace w ++ [e] |}.

(** Modelled from the spec: the host's
    [LockAcquire(locktag, lockmode, sessionLock, dontWait)], which is not
    part of the repository (the spec asks for a reentrant,
    strength-levelled lock table with a non-blocking try-acquire that says
    whether the lock was already held).  A strength the caller already
    holds is granted again and counted ([LOCKACQUIRE_ALREADY_HELD]);
    otherwise the request is granted when no other backend holds a
    conflicting strength ([LOCKACQUIRE_OK]); otherwise a [dontWait]
    request gives up ([LOCKACQUIRE_NOT_AVAIL], nothing acquired) and a
    waiting request suspends the process.  The table keeps granted locks
    only: a process that waits holds nothing and is not recorded. *)
Definition LockAcquire (me : Backend) (tag : LOCKTAG) (lockmode : LOCKMODE)
    (sessionLock dontWait : bool) : M LockAcquireResult :=
  fun w =>
    let k := lock_key me tag lockmode in
    let ev := EvLockAcquire (MyProcPid me) tag lockmode dontWait in
    match lock_table w !! k with
    | Some n =>
        Returned LOCKACQUIRE_ALREADY_HELD
          (log (ev LOCKACQUIRE_ALREADY_HELD)
             (<[k := Pos.succ n]> (lock_table w)) w)
    | None =>
        if conflicts_with_others (lock_table w) (MyProcPid me) tag lockmode then
          if dontWait then
            Returned LOCKACQUIRE_NOT_AVAIL
              (log (ev LOCKACQUIRE_NOT_AVAIL) (lock_table w) w)
          else Suspended
        else
          Returned LOCKACQUIRE_OK
            (log (ev LOCKACQUIRE_OK) (<[k := 1%positive]> (lock_table w)) w)
    end.

(** Modelled from the spec: the host's
    [LockRelease(locktag, lockmode, sessionLock)], reference-counted as the
    spec describes it.  One reference is given back; the entry goes away
    with the last one.  Releasing what is not held changes nothing and
    returns [false]. *)
Definition LockRelease (me : Backend) (tag : LOCKTAG) (lockmode : LOCKMODE)
    (sessionLock : bool) : M bool :=
  fun w =>
    let k := lock_key me tag lockmode in
    let ev := EvLockRelease (MyProcPid me) tag lockmode in
    match lock_table w !! k with
    | None => Returned false (log (ev false) (lock_table w) w)
    | Some 1%positive => Returned true (log (ev true) (delete k (lock_table w)) w)
    | Some n => Returned true (log (ev true) (<[k := Pos.pred n]> (lock_table w)) w)
    end.

(** ** [xact_handling.c] *)

Section XactHandling.

(** The host's catalog predicate [IsSharedRelation(relid)]. *)
Variable IsSharedRelation : Oid -> bool.

(** [SetLocktagRelationOid(&tag, relid)]. *)
Definition SetLocktagRelationOid (me : Backend) (relid : Oid) : LOCKTAG :=
  let dbid := if IsSharedRelation relid then InvalidOid else MyDatabaseId me in
  SET_LOCKTAG_RELATION dbid relid.

(** The host's [LockRelationOid], [ConditionalLockRelationOid] and
    [UnlockRelationOid] ([lmgr.c]); they build the tag with a helper of
    their own that reads exactly like [SetLocktagRelationOid] above. *)
Definition LockRelationOid (me : Backend) (relid : Oid) (lockmode : LOCKMODE) : M unit :=
  let tag := SetLocktagRelationOid me relid in
  _ ← LockAcquire me tag lockmode false false;
  mret tt.

Definition ConditionalLockRelationOid (me : Backend) (relid : Oid)
    (lockmode : LOCKMODE) : M bool :=
  let tag := SetLocktagRelationOid me relid in
  res ← LockAcquire me tag lockmode false true;
  match res with
  | LOCKACQUIRE_NOT_AVAIL => mret false
  | _ => mret true
  end.

Definition UnlockRelationOid (me : Backend) (relid : Oid) (lockmode : LOCKMODE) : M unit :=
  let tag := SetLocktagRelationOid me relid in
  _ ← LockRelease me tag lockmode false;
  mret tt.

Definition xact_lock_partitioned_rel (me : Backend) (relid : Oid) : M unit :=
  LockRelationOid me relid ShareUpdateExclusiveLock.

Definition xact_unlock_partitioned_rel (me : Backend) (relid : Oid) : M unit :=
  UnlockRelationOid me relid ShareUpdateExclusiveLock.

Definition xact_lock_rel_data (me : Backend) (relid : Oid) : M unit :=
  LockRelationOid me relid ShareLock.

Definition xact_unlock_rel_data (me : Backend) (relid : Oid) : M unit :=
  UnlockRelationOid me relid ShareLock.

(** [do_we_hold_the_lock(relid, lockmode)]. *)
Definition do_we_hold_the_lock (me : Backend) (relid : Oid)
    (lockmode : LOCKMODE) : M bool :=
  let tag := SetLocktagRelationOid me relid in
  res ← LockAcquire me tag lockmode false true;
  match res with
  | LOCKACQUIRE_ALREADY_HELD =>
      _ ← LockRelease me tag lockmode false;
      mret true
  | LOCKACQUIRE_OK =>
      _ ← LockRelease me tag lockmode false;
      mret false
  | _ => mret false
  end.

(** The [for] loop of [xact_bgw_conflicting_lock_exists], entered with the
    loop variable at [lockmode]. *)
Equations? bgw_lock_loop (me : Backend) (relid : Oid) (lockmode : LOCKMODE) : M bool
  by wf (Z.to_nat (AccessExclusiveLock + 1 - lockmode)) lt :=
  bgw_lock_loop me relid lockmode with Z_le_dec lockmode AccessExclusiveLock := {
    | left _ =>
        do_we_hold_the_lock me relid lockmode ≫= fun held : bool =>
        if held then mret true else bgw_lock_loop me relid (lockmode + 1)
    | right _ => mret false }.
Proof. unfold AccessExclusiveLock in *. lia. Qed.

Definition xact_bgw_conflicting_lock_exists (me : Backend) (relid : Oid) : M bool :=
  bgw_lock_loop me relid ShareUpdateExclusiveLock.

Definition xact_is_table_being_modified (me : Backend) (relid : Oid) : M bool :=
  ConditionalLockRelationOid me relid ExclusiveLock ≫= fun locked : bool =>
  if locked then
    _ ← UnlockRelationOid me relid ExclusiveLock;
    mret false
  else mret true.

Definition xact_is_level_read_committed (me : Backend) : bool :=
  if XactIsoLevel me <=? XACT_READ_COMMITTED then true else false.

End XactHandling.


(** ** What a run of the probes looks like *)

(** Backend [me] holds strength [lockmode] on [tag]. *)
Definition holds_lock (t : gmap LockKey positive) (me : Backend)
    (tag : LOCKTAG) (lockmode : LOCKMODE) : Prop :=
  is_Some (t !! lock_key me tag lockmode).

#[global] Instance holds_lock_dec t me tag lockmode :
  Decision (holds_lock t me tag lockmode).
Proof. unfold holds_lock. apply _. Defined.

(** Some other backend holds, on [tag], a strength conflicting with
    [lockmode]. *)
Definition held_by_others (t : gmap LockKey positive) (me : Backend)
    (tag : LOCKTAG) (lockmode : LOCKMODE) : Prop :=
  ∃ k n, t !! k = Some n ∧ blocks (MyProcPid me) tag lockmode k.

(** The lock-manager calls of one probe of one strength: a conditional
    acquire that was granted and the release that follows it, or a
    conditional acquire that was refused and nothing else. *)
Inductive probe_step (pid : Z) (tag : LOCKTAG) (lockmode : LOCKMODE) :
    list LockEvent -> Prop :=
| probe_granted res :
    res ≠ LOCKACQUIRE_NOT_AVAIL ->
    probe_step pid tag lockmode
      [EvLockAcquire pid tag lockmode true res;
       EvLockRelease pid tag lockmode true]
| probe_refused :
    probe_step pid tag lockmode
      [EvLockAcquire pid tag lockmode true LOCKACQUIRE_NOT_AVAIL].

(** The calls of the probe loop from strength [lockmode] on: one probe
    per strength, the strengths going up by one, until the loop stops. *)
Inductive probe_run (pid : Z) (tag : LOCKTAG) : LOCKMODE -> list LockEvent -> Prop :=
| probe_run_stop lockmode : probe_run pid tag lockmode []
| probe_run_next lockmode tr1 tr2 :
    lockmode <= AccessExclusiveLock ->
    probe_step pid tag lockmode tr1 ->
    probe_run pid tag (lockmode + 1) tr2 ->
    probe_run pid tag lockmode (tr1 ++ tr2).

(** The acquisitions of a trace that may put the caller to sleep. *)
Definition is_conditional (e : LockEvent) : Prop :=
  match e with
  | EvLockAcquire _ _ _ dontWait _ => dontWait = true
  | EvLockRelease _ _ _ _ => True
  end.

(** The strengths a trace tried to acquire, in order. *)
Fixpoint acquire_levels (tr : list LockEvent) : list LOCKMODE :=
  match tr with
  | [] => []
  | EvLockAcquire _ _ lockmode _ _ :: tr' => lockmode :: acquire_levels tr'
  | EvLockRelease _ _ _ _ :: tr' => acquire_levels tr'
  end.

Definition returns {A : Type} (o : Outcome A) : Prop :=
  match o with
  | Returned _ _ => True
  | Suspended => False
  end.

(** The object an event is about. *)
Definition event_tag (e : LockEvent) : LOCKTAG :=
  match e with
  | EvLockAcquire _ tag _ _ _ => tag
  | EvLockRelease _ tag _ _ => tag
  end.

(** ** The lock manager as a transition system *)

(** Any backend may call [LockAcquire] or [LockRelease] at any moment; a
    call that returns is a transition, a request that has to wait is not
    one until it can be granted. *)
Inductive lock_step : World -> World -> Prop :=
| step_acquire me tag lockmode sessionLock dontWait res w w' :
    LockAcquire me tag lockmode sessionLock dontWait w = Returned res w' ->
    lock_step w w'
| step_release me tag lockmode sessionLock ok w w' :
    LockRelease me tag lockmode sessionLock w = Returned ok w' ->
    lock_step w w'.

Definition initial_world : World := {| lock_table := ∅; lock_trace := [] |}.

Definition reachable (w : World) : Prop := rtc lock_step initial_world w.

(** No two backends hold conflicting strengths on one object. *)
Definition table_consistent (t : gmap LockKey positive) : Prop :=
  ∀ k1 k2 n1 n2,
    t !! k1 = Some n1 -> t !! k2 = Some n2 ->
    k1.1.1 ≠ k2.1.1 -> k1.1.2 = k2.1.2 ->
    DoLockModesConflict k1.2 k2.2 = false.

(** A computation all of whose runs are made of lock-manager
    transitions. *)
Definition made_of_steps {A : Type} (c : M A) : Prop :=
  ∀ w a w', c w = Returned a w' -> rtc lock_step w w'.

(** A computation whose lock-manager calls, in every run that returns,
    are all about the object [tag]. *)
Definition calls_only_on {A : Type} (tag : LOCKTAG) (c : M A) : Prop :=
  ∀ w a w', c w = Returned a w' ->
    ∃ tr, lock_trace w' = lock_trace w ++ tr
          ∧ Forall (fun e => event_tag e = tag) tr.

(** ** Range search *)

Section RangeSearch.

(** The partitioning key's type and its comparison function: negative,
    zero or positive as the first argument is below, equal to or above the
    second. *)
Variable Datum : Type.
Variable cmp_func : Datum -> Datum -> Z.

(** Modelled from the spec: [RangeEntry] is declared in [relation_info.h],
    which is not among the sources.  One partition's half-open value
    interval [[min, max)] plus the partition's identifier. *)
Record RangeEntry : Type := mkRangeEntry {
  child_oid : Oid;
  min : Datum;
  max : Datum
}.

(** [value] lies in the half-open interval of [re]. *)
Definition range_contains (re : RangeEntry) (value : Datum) : Prop :=
  0 <= cmp_func value (min re) ∧ cmp_func value (max re) < 0.

(** Modelled from the spec: the binary search of
    [search_range_partition_eq], whose body is in [pg_pathman.c], not among
    the sources.  It searches the entries at positions [lo .. hi - 1] for
    the one whose interval contains [value]. *)
Equations? range_bsearch (ranges : list RangeEntry) (value : Datum) (lo hi : nat) :
    option (nat * RangeEntry) by wf (hi - lo)%nat lt :=
  range_bsearch ranges value lo hi with decide (lo < hi)%nat := {
    | right _ => None
    | left _ =>
        match ranges !! ((lo + hi) / 2)%nat with
        | None => None
        | Some re =>
            if cmp_func value (min re) <? 0 then
              range_bsearch ranges value lo ((lo + hi) / 2)%nat
            else if 0 <=? cmp_func value (max re) then
              range_bsearch ranges value ((lo + hi) / 2 + 1)%nat hi
            else Some (((lo + hi) / 2)%nat, re)
        end }.
Proof.
  all: change (Nat.divmod (lo + hi) 1 0 1).1 with ((lo + hi) / 2)%nat.
  all: assert (lo <= (lo + hi) / 2 < hi)%nat as Hmid
    by (split; [apply Nat.div_le_lower_bound|apply Nat.Div0.div_lt_upper_bound]; lia).
  all: lia.
Qed.

(** Modelled from the spec: [search_range_partition_eq], declared in
    [pathman.h] and defined in [pg_pathman.c], which is not among the
    sources.  Out of range when [value] is below the first interval or at
    or above the last interval's upper bound (or there is no interval);
    otherwise found, with the position and the entry, when the binary
    search meets a containing entry, and a gap when it does not. *)
Definition search_range_partition_eq (value : Datum) (ranges : list RangeEntry) :
    search_rangerel_result * option (nat * RangeEntry) :=
  match head ranges, last ranges with
  | Some first_re, Some last_re =>
      if (cmp_func value (min first_re) <? 0) || (0 <=? cmp_func value (max last_re))
      then (SEARCH_RANGEREL_OUT_OF_RANGE, None)
      else
        match range_bsearch ranges value 0 (length ranges) with
        | Some found => (SEARCH_RANGEREL_FOUND, Some found)
        | None => (SEARCH_RANGEREL_GAP, None)
        end
  | _, _ => (SEARCH_RANGEREL_OUT_OF_RANGE, None)
  end.

(** The sequence is sorted and its intervals do not overlap: every
    interval's lower bound is not above its upper bound, and an earlier
    interval ends where a later one begins, or before. *)
Definition ranges_sorted (ranges : list RangeEntry) : Prop :=
  (∀ i re, ranges !! i = Some re -> cmp_func (min re) (max re) <= 0)
  ∧ (∀ i j re_i re_j,
       ranges !! i = Some re_i -> ranges !! j = Some re_j -> (i < j)%nat ->
       cmp_func (max re_i) (min re_j) <= 0).

(** Some entry's interval contains [value]. *)
Definition covered (ranges : list RangeEntry) (value : Datum) : Prop :=
  ∃ re, re ∈ ranges ∧ range_contains re value.

(** [value] lies between two entries: at or above the upper bound of one
    and below the lower bound of another. *)
Definition between_entries (ranges : list RangeEntry) (value : Datum) : Prop :=
  ∃ re1 re2, re1 ∈ ranges ∧ re2 ∈ ranges
    ∧ 0 <= cmp_func value (max re1) ∧ cmp_func value (min re2) < 0.

(** The value is outside the span of the sequence: there is no interval,
    or it is below the first one, or at or above the end of the last. *)
Definition outside_span (ranges : list RangeEntry) (value : Datum) : Prop :=
  ranges = []
  ∨ (∃ first_re, head ranges = Some first_re ∧ cmp_func value (min first_re) < 0)
  ∨ (∃ last_re, last ranges = Some last_re ∧ 0 <= cmp_func value (max last_re)).

End RangeSearch.

Arguments child_oid {Datum} _.
Arguments min {Datum} _.
Arguments max {Datum} _.
Arguments mkRangeEntry {Datum} _ _ _.

(** ** Concrete inputs *)

(** An integer key compared the way the host's [btint4cmp] orders it,
    and the partition sequence of the spec's gap scenario extended by one
    adjacent partition. *)
Definition example_cmp (a b : Z) : Z := a - b.

Definition example_ranges : list (RangeEntry Z) :=
  [mkRangeEntry 24577 0 10; mkRangeEntry 24578 20 30; mkRangeEntry 24579 30 40].

(** The shared catalogs of an example installation, two sessions of one
    database and a session of another one. *)
Definition example_IsSharedRelation (relid : Oid) : bool :=
  bool_decide (relid ∈ [1213; 1214; 1260; 1261; 1262; 2396]).

Definition example_writer : Backend :=
  {| MyProcPid := 4001; MyDatabaseId := 16384; XactIsoLevel := XACT_READ_COMMITTED |}.

Definition example_session : Backend :=
  {| MyProcPid := 4002; MyDatabaseId := 16384; XactIsoLevel := XACT_READ_COMMITTED |}.

Definition example_other_db_session : Backend :=
  {| MyProcPid := 4003; MyDatabaseId := 16385; XactIsoLevel := XACT_REPEATABLE_READ |}.

(** Run [c] and hand the world it returns in to [k]. *)
Definition after {A B : Type} (c : M A) (k : World -> Outcome B) (w : World) : Outcome B :=
  match c w with
  | Returned _ w' => k w'
  | Suspended => Suspended
  end.

(** A world in which a writer holds [RowExclusiveLock] on relation 24576. *)
Definition example_world_with_writer : World :=
  {| lock_table :=
       {[ lock_key example_writer
            (SetLocktagRelationOid example_IsSharedRelation example_writer 24576)
            RowExclusiveLock := 1%positive ]};
     lock_trace := [] |}.

(** What a run lets one observe: the value returned, the trace, and how
    many times the keys in [ks] are held at the end. *)
Definition observed {A : Type} (ks : list LockKey) (o : Outcome A) :
    option (A * list LockEvent * list (option positive)) :=
  match o with
  | Returned a w => Some (a, lock_trace w, (fun k => lock_table w !! k) <$> ks)
  | Suspended => None
  end.

(** ** Facts about the lock manager *)

Lemma conflicts_with_others_true t me tag lockmode :
  conflicts_with_others t (MyProcPid me) tag lockmode = true <->
  held_by_others t me tag lockmode.
Proof.
  unfold conflicts_with_others, held_by_others.
  rewrite negb_true_iff, bool_decide_eq_false, map_not_Forall by apply _.
  split; intros (k & n & Hk & Hb); exists k, n; split; trivial.
  - destruct (decide (blocks (MyProcPid me) tag lockmode k)); tauto.
  - tauto.
Qed.

Lemma conflicts_with_others_false t me tag lockmode :
  conflicts_with_others t (MyProcPid me) tag lockmode = false <->
  ¬ held_by_others t me tag lockmode.
Proof.
  rewrite <- conflicts_with_others_true.
  destruct (conflicts_with_others _ _ _ _); split; congruence.
Qed.

(** The three ways [LockAcquire] can go for a [dontWait] request. *)
Lemma LockAcquire_held me tag lockmode sl dw w n :
  lock_table w !! lock_key me tag lockmode = Some n ->
  LockAcquire me tag lockmode sl dw w =
    Returned LOCKACQUIRE_ALREADY_HELD
      (log (EvLockAcquire (MyProcPid me) tag lockmode dw LOCKACQUIRE_ALREADY_HELD)
         (<[lock_key me tag lockmode := Pos.succ n]> (lock_table w)) w).
Proof. intros Hk. unfold LockAcquire. by rewrite Hk. Qed.

Lemma LockAcquire_granted me tag lockmode sl dw w :
  lock_table w !! lock_key me tag lockmode = None ->
  conflicts_with_others (lock_table w) (MyProcPid me) tag lockmode = false ->
  LockAcquire me tag lockmode sl dw w =
    Returned LOCKACQUIRE_OK
      (log (EvLockAcquire (MyProcPid me) tag lockmode dw LOCKACQUIRE_OK)
         (<[lock_key me tag lockmode := 1%positive]> (lock_table w)) w).
Proof. intros Hk Hc. unfold LockAcquire. by rewrite Hk, Hc. Qed.

Lemma LockAcquire_refused me tag lockmode sl w :
  lock_table w !! lock_key me tag lockmode = None ->
  conflicts_with_others (lock_table w) (MyProcPid me) tag lockmode = true ->
  LockAcquire me tag lockmode sl true w =
    Returned LOCKACQUIRE_NOT_AVAIL
      (log (EvLockAcquire (MyProcPid me) tag lockmode true LOCKACQUIRE_NOT_AVAIL)
         (lock_table w) w).
Proof. intros Hk Hc. unfold LockAcquire. by rewrite Hk, Hc. Qed.

Lemma LockAcquire_waits me tag lockmode sl w :
  lock_table w !! lock_key me tag lockmode = None ->
  conflicts_with_others (lock_table w) (MyProcPid me) tag lockmode = true ->
  LockAcquire me tag lockmode sl false w = Suspended.
Proof. intros Hk Hc. unfold LockAcquire. by rewrite Hk, Hc. Qed.

(** Giving back the reference a granted acquire has just taken restores
    the table. *)
Lemma LockRelease_regrant (me : Backend) (tag : LOCKTAG) (lockmode : LOCKMODE)
    (sl : bool) (w1 : World)
    (t : gmap LockKey positive) (n : positive) :
  t !! lock_key me tag lockmode = Some n ->
  lock_table w1 = <[lock_key me tag lockmode := Pos.succ n]> t ->
  LockRelease me tag lockmode sl w1 =
    Returned true (log (EvLockRelease (MyProcPid me) tag lockmode true) t w1).
Proof.
  intros Hk Ht. unfold LockRelease. rewrite Ht, lookup_insert_eq.
  assert (<[lock_key me tag lockmode := Pos.pred (Pos.succ n)]>
            (<[lock_key me tag lockmode := Pos.succ n]> t) = t) as Hback.
  { rewrite Pos.pred_succ, insert_insert_eq. by apply insert_id. }
  destruct (Pos.succ n) eqn:Hs; try (exfalso; lia); by rewrite Hback.
Qed.

Lemma LockRelease_first (me : Backend) (tag : LOCKTAG) (lockmode : LOCKMODE)
    (sl : bool) (w1 : World)
    (t : gmap LockKey positive) :
  t !! lock_key me tag lockmode = None ->
  lock_table w1 = <[lock_key me tag lockmode := 1%positive]> t ->
  LockRelease me tag lockmode sl w1 =
    Returned true (log (EvLockRelease (MyProcPid me) tag lockmode true) t w1).
Proof.
  intros Hk Ht. unfold LockRelease. rewrite Ht, lookup_insert_eq.
  rewrite delete_insert_eq. by rewrite delete_id.
Qed.

Lemma log_log e1 e2 t1 t2 w :
  log e2 t2 (log e1 t1 w) =
    {| lock_table := t2; lock_trace := lock_trace w ++ [e1; e2] |}.
Proof. unfold log. simpl. by rewrite <- app_assoc. Qed.

Section XactHandlingFacts.

Variable IsSharedRelation : Oid -> bool.

(** One probe of one strength: it returns, it says whether the caller
    held the strength, and it leaves the table as it found it. *)
Lemma do_we_hold_the_lock_run me relid lockmode w :
  let tag := SetLocktagRelationOid IsSharedRelation me relid in
  ∃ tr,
    do_we_hold_the_lock IsSharedRelation me relid lockmode w =
      Returned (bool_decide (holds_lock (lock_table w) me tag lockmode))
        {| lock_table := lock_table w; lock_trace := lock_trace w ++ tr |}
    ∧ probe_step (MyProcPid me) tag lockmode tr.
Proof.
  intros tag. unfold do_we_hold_the_lock. fold tag. unfold mbind, M_bind.
  destruct (decide (holds_lock (lock_table w) me tag lockmode)) as [[n Hn]|Hfree].
  - rewrite bool_decide_eq_true_2 by (by exists n).
    rewrite (LockAcquire_held _ _ _ _ _ _ n Hn).
    rewrite (LockRelease_regrant me tag lockmode false (log _ _ w) (lock_table w) n Hn eq_refl).
    unfold mret, M_ret. rewrite log_log. eexists. split; [reflexivity|].
    by apply probe_granted.
  - rewrite bool_decide_eq_false_2 by done.
    apply eq_None_not_Some in Hfree.
    destruct (conflicts_with_others (lock_table w) (MyProcPid me) tag lockmode) eqn:Hc.
    + rewrite (LockAcquire_refused _ _ _ _ _ Hfree Hc).
      eexists. split; [reflexivity|]. apply probe_refused.
    + rewrite (LockAcquire_granted _ _ _ _ _ _ Hfree Hc).
      rewrite (LockRelease_first me tag lockmode false (log _ _ w) (lock_table w) Hfree eq_refl).
      unfold mret, M_ret. rewrite log_log. eexists. split; [reflexivity|].
      by apply probe_granted.
Qed.

(** The loop, one iteration unrolled. *)
Lemma bgw_lock_loop_unroll me relid lockmode w :
  bgw_lock_loop IsSharedRelation me relid lockmode w =
    if decide (lockmode <= AccessExclusiveLock) then
      match do_we_hold_the_lock IsSharedRelation me relid lockmode w with
      | Returned true w' => Returned true w'
      | Returned false w' => bgw_lock_loop IsSharedRelation me relid (lockmode + 1) w'
      | Suspended => Suspended
      end
    else Returned false w.
Proof.
  rewrite (bgw_lock_loop_equation_1 IsSharedRelation me relid lockmode).
  destruct (Z_le_dec lockmode AccessExclusiveLock), (decide (lockmode <= AccessExclusiveLock));
    try lia; simpl; [|reflexivity].
  unfold mbind, M_bind.
  by destruct (do_we_hold_the_lock _ _ _ _ _) as [[|] ?|].
Qed.

(** The loop entered at [lockmode]: it returns, its answer is whether the
    caller held one of the strengths from [lockmode] up, the table is the
    one it started from, and its calls are one probe per strength. *)
Lemma bgw_lock_loop_run me relid (n : nat) :
  let tag := SetLocktagRelationOid IsSharedRelation me relid in
  ∀ lockmode w,
    Z.to_nat (AccessExclusiveLock + 1 - lockmode) = n ->
    ∃ b tr,
      bgw_lock_loop IsSharedRelation me relid lockmode w =
        Returned b {| lock_table := lock_table w; lock_trace := lock_trace w ++ tr |}
      ∧ (b = true <->
         ∃ m, lockmode <= m <= AccessExclusiveLock ∧ holds_lock (lock_table w) me tag m)
      ∧ probe_run (MyProcPid me) tag lockmode tr.
Proof.
  intros tag. induction n as [|n IH]; intros lockmode w Hn;
    rewrite bgw_lock_loop_unroll.
  - rewrite decide_False by lia. exists false, [].
    split; [|split].
    + rewrite app_nil_r. by destruct w.
    + split; [discriminate|]. intros (m & Hm & _). lia.
    + apply probe_run_stop.
  - rewrite decide_True by lia.
    destruct (do_we_hold_the_lock_run me relid lockmode w) as (tr1 & Hrun & Hstep).
    fold tag in Hrun, Hstep. rewrite Hrun.
    destruct (bool_decide (holds_lock (lock_table w) me tag lockmode)) eqn:Hheld.
    + apply bool_decide_eq_true in Hheld. exists true, tr1.
      split; [done|split].
      * split; [|done]. intros _. exists lockmode. split; [lia|done].
      * rewrite <- (app_nil_r tr1).
        apply probe_run_next; [lia|done|apply probe_run_stop].
    + apply bool_decide_eq_false in Hheld.
      destruct (IH (lockmode + 1)
                  {| lock_table := lock_table w; lock_trace := lock_trace w ++ tr1 |})
        as (b & tr2 & Hloop & Hb & Htr); [lia|].
      simpl in Hloop, Hb. exists b, (tr1 ++ tr2).
      split; [by rewrite Hloop, app_assoc|split].
      * rewrite Hb. split; intros (m & Hm & Hh); exists m; (split; [|done]); [lia|].
        destruct (decide (m = lockmode)) as [->|]; [done|lia].
      * apply probe_run_next; [lia|done|done].
Qed.

(** What the calls of a probe run have in common. *)
Lemma probe_step_conditional pid tag lockmode tr :
  probe_step pid tag lockmode tr -> Forall is_conditional tr.
Proof. destruct 1; repeat constructor. Qed.

Lemma probe_run_conditional pid tag lockmode tr :
  probe_run pid tag lockmode tr -> Forall is_conditional tr.
Proof.
  induction 1 as [|? ? ? ? Hstep]; [constructor|].
  apply Forall_app. split; [by eapply probe_step_conditional|done].
Qed.

Lemma probe_step_levels pid tag lockmode tr :
  probe_step pid tag lockmode tr -> acquire_levels tr = [lockmode].
Proof. by destruct 1. Qed.

Lemma acquire_levels_app tr1 tr2 :
  acquire_levels (tr1 ++ tr2) = acquire_levels tr1 ++ acquire_levels tr2.
Proof.
  induction tr1 as [|[] tr1 IH]; simpl; [done| |done]. by rewrite IH.
Qed.

Lemma probe_run_levels pid tag lockmode tr :
  probe_run pid tag lockmode tr ->
  acquire_levels tr `prefix_of`
    seqZ lockmode (AccessExclusiveLock + 1 - lockmode).
Proof.
  induction 1 as [lockmode|lockmode tr1 tr2 Hle Hstep _ IH].
  - apply prefix_nil.
  - rewrite acquire_levels_app, (probe_step_levels _ _ _ _ Hstep).
    replace (AccessExclusiveLock + 1 - lockmode)
      with (Z.succ (AccessExclusiveLock + 1 - (lockmode + 1))) by lia.
    rewrite seqZ_cons by lia. simpl.
    replace (Z.succ lockmode) with (lockmode + 1) by lia.
    replace (Z.pred (Z.succ (AccessExclusiveLock + 1 - (lockmode + 1))))
      with (AccessExclusiveLock + 1 - (lockmode + 1)) by lia.
    by apply prefix_cons.
Qed.

(** Claim C1.  For every relation identifier and every state of the lock
    table, [xact_bgw_conflicting_lock_exists] returns, and it returns
    [true] if and only if the calling backend already holds, on that
    relation, a lock of some strength from [ShareUpdateExclusiveLock] up to
    and including [AccessExclusiveLock]; it returns [false] only when the
    backend holds none of these strengths. *)
Theorem xact_bgw_conflicting_lock_exists_iff_held me relid w :
  ∃ b w',
    xact_bgw_conflicting_lock_exists IsSharedRelation me relid w = Returned b w'
    ∧ (b = true <->
       ∃ lockmode,
         ShareUpdateExclusiveLock <= lockmode <= AccessExclusiveLock
         ∧ holds_lock (lock_table w) me
             (SetLocktagRelationOid IsSharedRelation me relid) lockmode)
    ∧ (b = false <->
       ∀ lockmode,
         ShareUpdateExclusiveLock <= lockmode <= AccessExclusiveLock ->
         ¬ holds_lock (lock_table w) me
             (SetLocktagRelationOid IsSharedRelation me relid) lockmode).
Proof.
  destruct (bgw_lock_loop_run me relid _ ShareUpdateExclusiveLock w eq_refl)
    as (b & tr & Hrun & Hb & _).
  exists b, {| lock_table := lock_table w; lock_trace := lock_trace w ++ tr |}.
  split; [exact Hrun|split; [exact Hb|]].
  split.
  - intros -> lockmode Hrange Hheld.
    assert (false = true) as Habs by (apply Hb; eauto). discriminate.
  - intros Hnone. destruct b; [|reflexivity].
    destruct Hb as [Hb _]. destruct (Hb eq_refl) as (lockmode & Hrange & Hheld).
    destruct (Hnone lockmode Hrange Hheld).
Qed.

(** Claim C2.  For every relation identifier and every lock table (that
    is, after any sequence of earlier acquisitions),
    [xact_bgw_conflicting_lock_exists] returns in a world whose lock table
    -- which locks are held and how many times each -- is the one it
    started from.  The calls it made are one probe per strength, each a
    conditional acquire that is followed by exactly one release of the
    same strength when it was granted ([LOCKACQUIRE_ALREADY_HELD] or
    [LOCKACQUIRE_OK]) and by none when it was refused; and no refused
    conditional acquire, of any backend on any object, changes the table. *)
Theorem xact_bgw_conflicting_lock_exists_preserves_locks me relid w :
  (∃ b tr,
     xact_bgw_conflicting_lock_exists IsSharedRelation me relid w =
       Returned b {| lock_table := lock_table w; lock_trace := lock_trace w ++ tr |}
     ∧ probe_run (MyProcPid me) (SetLocktagRelationOid IsSharedRelation me relid)
         ShareUpdateExclusiveLock tr)
  ∧ (∀ tag lockmode sessionLock dontWait w1 w2,
       LockAcquire me tag lockmode sessionLock dontWait w1 =
         Returned LOCKACQUIRE_NOT_AVAIL w2 ->
       lock_table w2 = lock_table w1).
Proof.
  split.
  - destruct (bgw_lock_loop_run me relid _ ShareUpdateExclusiveLock w eq_refl)
      as (b & tr & Hrun & _ & Htr).
    by exists b, tr.
  - intros tag lockmode sl dw w1 w2. unfold LockAcquire.
    destruct (lock_table w1 !! lock_key me tag lockmode); [discriminate|].
    destruct (conflicts_with_others _ _ _ _); [|discriminate].
    destruct dw; [|discriminate].
    intros [= <-]. reflexivity.
Qed.

(** The conditional exclusive-lock attempt of
    [xact_is_table_being_modified], spelled out. *)
Lemma xact_is_table_being_modified_run me relid w :
  let tag := SetLocktagRelationOid IsSharedRelation me relid in
  let pid := MyProcPid me in
  ∃ res,
    xact_is_table_being_modified IsSharedRelation me relid w =
      Returned (bool_decide (res = LOCKACQUIRE_NOT_AVAIL))
        {| lock_table := lock_table w;
           lock_trace := lock_trace w ++
             EvLockAcquire pid tag ExclusiveLock true res ::
             (if bool_decide (res = LOCKACQUIRE_NOT_AVAIL) then []
              else [EvLockRelease pid tag ExclusiveLock true]) |}
    ∧ (res = LOCKACQUIRE_NOT_AVAIL <->
       ¬ holds_lock (lock_table w) me tag ExclusiveLock
       ∧ held_by_others (lock_table w) me tag ExclusiveLock).
Proof.
  intros tag pid.
  unfold xact_is_table_being_modified, ConditionalLockRelationOid, UnlockRelationOid.
  fold tag. unfold mbind, M_bind.
  destruct (decide (holds_lock (lock_table w) me tag ExclusiveLock)) as [[n Hn]|Hfree].
  - exists LOCKACQUIRE_ALREADY_HELD.
    rewrite (LockAcquire_held _ _ _ _ _ _ n Hn). unfold mret, M_ret.
    rewrite (LockRelease_regrant me tag ExclusiveLock false (log _ _ w)
               (lock_table w) n Hn eq_refl).
    rewrite log_log. split; [reflexivity|].
    split; [discriminate|]. intros [Hnot _]. destruct Hnot. by exists n.
  - pose proof Hfree as Hnone. apply eq_None_not_Some in Hnone.
    destruct (conflicts_with_others (lock_table w) (MyProcPid me) tag ExclusiveLock) eqn:Hc.
    + exists LOCKACQUIRE_NOT_AVAIL.
      rewrite (LockAcquire_refused _ _ _ _ _ Hnone Hc).
      split; [reflexivity|]. split; [|done].
      intros _. split; [done|]. by apply conflicts_with_others_true.
    + exists LOCKACQUIRE_OK.
      rewrite (LockAcquire_granted _ _ _ _ _ _ Hnone Hc). unfold mret, M_ret.
      rewrite (LockRelease_first me tag ExclusiveLock false (log _ _ w)
                 (lock_table w) Hnone eq_refl).
      rewrite log_log. split; [reflexivity|].
      split; [discriminate|]. intros [_ Hothers].
      apply conflicts_with_others_false in Hc. by destruct Hc.
Qed.

(** Claim C8.  Both probes always return -- the calling process is never
    suspended -- whatever the lock table holds: every acquisition they
    make is a conditional ([dontWait]) one, [xact_is_table_being_modified]
    makes exactly one, and the strengths the loop of
    [xact_bgw_conflicting_lock_exists] tries are an initial segment of
    [ShareUpdateExclusiveLock .. AccessExclusiveLock], each tried at most
    once. *)
Theorem probes_never_suspend me relid w :
  (∃ b w' tr,
     xact_bgw_conflicting_lock_exists IsSharedRelation me relid w = Returned b w'
     ∧ lock_trace w' = lock_trace w ++ tr
     ∧ Forall is_conditional tr
     ∧ acquire_levels tr `prefix_of`
         [ShareUpdateExclusiveLock; ShareLock; ShareRowExclusiveLock;
          ExclusiveLock; AccessExclusiveLock]
     ∧ NoDup (acquire_levels tr))
  ∧ (∃ b w' tr,
       xact_is_table_being_modified IsSharedRelation me relid w = Returned b w'
       ∧ lock_trace w' = lock_trace w ++ tr
       ∧ Forall is_conditional tr
       ∧ acquire_levels tr = [ExclusiveLock]).
Proof.
  split.
  - destruct (bgw_lock_loop_run me relid _ ShareUpdateExclusiveLock w eq_refl)
      as (b & tr & Hrun & _ & Htr).
    exists b, {| lock_table := lock_table w; lock_trace := lock_trace w ++ tr |}, tr.
    pose proof (probe_run_levels _ _ _ _ Htr) as Hlevels.
    repeat split; [exact Hrun|by eapply probe_run_conditional|exact Hlevels|].
    destruct Hlevels as [rest Hrest].
    eapply (NoDup_app (acquire_levels tr) rest). rewrite <- Hrest.
    apply NoDup_seqZ.
  - destruct (xact_is_table_being_modified_run me relid w) as (res & Hrun & _).
    eexists _, _, _. split; [exact Hrun|]. split; [reflexivity|].
    split; [by destruct res; repeat constructor|by destruct res].
Qed.

End XactHandlingFacts.

(** ** The conflict table *)

Lemma valid_lockmode_cases (m : LOCKMODE) :
  AccessShareLock <= m <= AccessExclusiveLock ->
  m = AccessShareLock ∨ m = RowShareLock ∨ m = RowExclusiveLock
  ∨ m = ShareUpdateExclusiveLock ∨ m = ShareLock ∨ m = ShareRowExclusiveLock
  ∨ m = ExclusiveLock ∨ m = AccessExclusiveLock.
Proof.
  unfold AccessShareLock, RowShareLock, RowExclusiveLock, ShareUpdateExclusiveLock,
    ShareLock, ShareRowExclusiveLock, ExclusiveLock, AccessExclusiveLock.
  lia.
Qed.

Ltac each_lockmode H :=
  apply valid_lockmode_cases in H;
  destruct H as [->|[->|[->|[->|[->|[->|[->| ->]]]]]]].

Lemma LockConflicts_invalid (m : LOCKMODE) :
  ¬ (AccessShareLock <= m <= AccessExclusiveLock) -> LockConflicts m = 0.
Proof.
  intros Hm. unfold LockConflicts.
  repeat match goal with
  | |- context [?a =? ?b] =>
      destruct (Z.eqb_spec a b) as [->|_];
      [exfalso; apply Hm; by vm_compute|]
  end.
  reflexivity.
Qed.

Lemma LockConflicts_mask (m : LOCKMODE) :
  0 <= LockConflicts m < 2 ^ 9 ∧ Z.land (LockConflicts m) 1 = 0.
Proof.
  destruct (decide (AccessShareLock <= m <= AccessExclusiveLock)) as [Hm|Hm].
  - each_lockmode Hm; by vm_compute.
  - rewrite (LockConflicts_invalid m Hm). by vm_compute.
Qed.

Lemma land_pow2_above (a n : Z) : 0 <= a < 2 ^ n -> Z.land a (2 ^ n) = 0.
Proof.
  intros [Ha Hn]. apply Z.bits_inj'. intros i Hi.
  rewrite Z.land_spec, Z.bits_0.
  destruct (decide (n = i)) as [->|Hne].
  - destruct (decide (a = 0)) as [->|Hpos].
    + by rewrite Z.bits_0.
    + rewrite Z.bits_above_log2; [done|lia|].
      apply Z.log2_lt_pow2; lia.
  - rewrite (Z.pow2_bits_false n i Hne). apply andb_false_r.
Qed.

(** Only the eight table-level strengths take part in conflicts. *)
Lemma DoLockModesConflict_valid (m1 m2 : LOCKMODE) :
  DoLockModesConflict m1 m2 = true ->
  AccessShareLock <= m1 <= AccessExclusiveLock
  ∧ AccessShareLock <= m2 <= AccessExclusiveLock.
Proof.
  unfold DoLockModesConflict, LOCKBIT_ON. rewrite Z.shiftl_1_l.
  intros Hc. apply negb_true_iff, Z.eqb_neq in Hc.
  split.
  - destruct (decide (AccessShareLock <= m1 <= AccessExclusiveLock)) as [|Hm]; [done|].
    rewrite (LockConflicts_invalid m1 Hm) in Hc. by rewrite Z.land_0_l in Hc.
  - destruct (LockConflicts_mask m1) as [Hmask Hbit0].
    unfold AccessShareLock, AccessExclusiveLock.
    destruct (decide (m2 < 0)) as [Hneg|Hnn].
    { rewrite Z.pow_neg_r, Z.land_0_r in Hc by done. done. }
    destruct (decide (m2 = 0)) as [->|Hnz]; [done|].
    destruct (decide (m2 <= 8)) as [|Hbig]; [lia|].
    rewrite land_pow2_above in Hc; [done|].
    split; [lia|]. eapply Z.lt_le_trans; [apply Hmask|].
    apply Z.pow_le_mono_r; lia.
Qed.

(** The conflict table is symmetric. *)
Lemma DoLockModesConflict_sym (m1 m2 : LOCKMODE) :
  DoLockModesConflict m1 m2 = DoLockModesConflict m2 m1.
Proof.
  destruct (DoLockModesConflict m1 m2) eqn:H12.
  - destruct (DoLockModesConflict_valid _ _ H12) as [H1 H2].
    revert H12. each_lockmode H1; each_lockmode H2; by vm_compute.
  - destruct (DoLockModesConflict m2 m1) eqn:H21; [|done].
    destruct (DoLockModesConflict_valid _ _ H21) as [H2 H1].
    revert H12. each_lockmode H1; each_lockmode H2; by vm_compute.
Qed.

(** The strengths that conflict with [ShareLock] and with
    [ShareUpdateExclusiveLock]: the two rows of the table the lock
    coordinator relies on. *)
Lemma ShareLock_conflicts (m : LOCKMODE) :
  DoLockModesConflict ShareLock m = true <->
  m = RowExclusiveLock ∨ m = ShareUpdateExclusiveLock ∨ m = ShareRowExclusiveLock
  ∨ m = ExclusiveLock ∨ m = AccessExclusiveLock.
Proof.
  split.
  - intros Hc. destruct (DoLockModesConflict_valid _ _ Hc) as [_ Hm].
    revert Hc. each_lockmode Hm; vm_compute; intros; try discriminate; tauto.
  - intros [->|[->|[->|[->| ->]]]]; by vm_compute.
Qed.

Lemma ShareUpdateExclusiveLock_conflicts (m : LOCKMODE) :
  DoLockModesConflict ShareUpdateExclusiveLock m = true <->
  m = ShareUpdateExclusiveLock ∨ m = ShareLock ∨ m = ShareRowExclusiveLock
  ∨ m = ExclusiveLock ∨ m = AccessExclusiveLock.
Proof.
  split.
  - intros Hc. destruct (DoLockModesConflict_valid _ _ Hc) as [_ Hm].
    revert Hc. each_lockmode Hm; vm_compute; intros; try discriminate; tauto.
  - intros [->|[->|[->|[->| ->]]]]; by vm_compute.
Qed.

(** ** Blocking acquisition *)

Section LockStrengths.

Variable IsSharedRelation : Oid -> bool.

Lemma LockRelationOid_suspends me relid lockmode w :
  let tag := SetLocktagRelationOid IsSharedRelation me relid in
  LockRelationOid IsSharedRelation me relid lockmode w = Suspended <->
  ¬ holds_lock (lock_table w) me tag lockmode
  ∧ held_by_others (lock_table w) me tag lockmode.
Proof.
  intros tag. unfold LockRelationOid. fold tag.
  unfold mbind, M_bind, LockAcquire, holds_lock.
  rewrite <- conflicts_with_others_true.
  destruct (lock_table w !! lock_key me tag lockmode) as [n|].
  - split; [discriminate|]. intros [Hnot _]. destruct Hnot. by exists n.
  - destruct (conflicts_with_others _ _ _ _).
    + split; [|done]. intros _. split; [|done]. by intros [? ?].
    + split; [discriminate|]. by intros [_ ?].
Qed.

Lemma LockRelationOid_returns me relid lockmode w w' :
  let tag := SetLocktagRelationOid IsSharedRelation me relid in
  LockRelationOid IsSharedRelation me relid lockmode w = Returned tt w' ->
  ∃ n res,
    w' = {| lock_table := <[lock_key me tag lockmode := n]> (lock_table w);
            lock_trace := lock_trace w ++
              [EvLockAcquire (MyProcPid me) tag lockmode false res] |}.
Proof.
  intros tag. unfold LockRelationOid. fold tag.
  unfold mbind, M_bind, LockAcquire.
  destruct (lock_table w !! lock_key me tag lockmode) as [n|].
  - intros [= <-]. by eexists _, _.
  - destruct (conflicts_with_others _ _ _ _); [discriminate|].
    intros [= <-]. by eexists _, _.
Qed.

Lemma UnlockRelationOid_returns me relid lockmode w :
  let tag := SetLocktagRelationOid IsSharedRelation me relid in
  ∃ w' ok,
    UnlockRelationOid IsSharedRelation me relid lockmode w = Returned tt w'
    ∧ lock_trace w' = lock_trace w ++
        [EvLockRelease (MyProcPid me) tag lockmode ok].
Proof.
  intros tag. unfold UnlockRelationOid. fold tag.
  unfold mbind, M_bind, LockRelease.
  destruct (lock_table w !! lock_key me tag lockmode) as [[]|];
    by eexists _, _.
Qed.

(** Claim C3, as amended.  [xact_is_level_read_committed] returns [true]
    if and only if the isolation level of the current transaction is
    read-committed or any level below it: it is [true] at
    [XACT_READ_COMMITTED] and at [XACT_READ_UNCOMMITTED], and [false] at
    [XACT_REPEATABLE_READ] and [XACT_SERIALIZABLE]. *)
Theorem xact_is_level_read_committed_spec me :
  (xact_is_level_read_committed me = true <->
   XactIsoLevel me <= XACT_READ_COMMITTED)
  ∧ (xact_is_level_read_committed me = false <->
     XACT_READ_COMMITTED < XactIsoLevel me)
  ∧ (XactIsoLevel me = XACT_READ_COMMITTED ∨ XactIsoLevel me = XACT_READ_UNCOMMITTED ->
     xact_is_level_read_committed me = true)
  ∧ (XactIsoLevel me = XACT_REPEATABLE_READ ∨ XactIsoLevel me = XACT_SERIALIZABLE ->
     xact_is_level_read_committed me = false).
Proof.
  unfold xact_is_level_read_committed.
  unfold XACT_READ_COMMITTED, XACT_READ_UNCOMMITTED, XACT_REPEATABLE_READ,
    XACT_SERIALIZABLE.
  destruct (Z.leb_spec (XactIsoLevel me) 1) as [Hle|Hgt].
  - repeat split; intros; try done; try lia.
  - repeat split; intros; try done; try lia.
Qed.

(** Claim C4, as amended.  The strength [xact_lock_rel_data] acquires and
    [xact_unlock_rel_data] releases is [ShareLock].  Under the host's
    conflict table it conflicts with exclusive structural changes
    ([AccessExclusiveLock]) and also with the strength of row-level
    writers ([RowExclusiveLock]): the strengths that conflict with it are
    exactly [RowExclusiveLock], [ShareUpdateExclusiveLock],
    [ShareRowExclusiveLock], [ExclusiveLock] and [AccessExclusiveLock], so
    it conflicts neither with itself nor with readers.  Accordingly
    [xact_lock_rel_data] suspends exactly when the caller does not hold
    [ShareLock] yet and another backend holds one of those strengths. *)
Theorem xact_lock_rel_data_strength me relid w :
  let tag := SetLocktagRelationOid IsSharedRelation me relid in
  (∀ w', xact_lock_rel_data IsSharedRelation me relid w = Returned tt w' ->
     ∃ res, lock_trace w' = lock_trace w ++
              [EvLockAcquire (MyProcPid me) tag ShareLock false res])
  ∧ (∃ w' ok,
       xact_unlock_rel_data IsSharedRelation me relid w = Returned tt w'
       ∧ lock_trace w' = lock_trace w ++
           [EvLockRelease (MyProcPid me) tag ShareLock ok])
  ∧ (xact_lock_rel_data IsSharedRelation me relid w = Suspended <->
     ¬ holds_lock (lock_table w) me tag ShareLock
     ∧ held_by_others (lock_table w) me tag ShareLock)
  ∧ (∀ m, DoLockModesConflict ShareLock m = true <->
       m = RowExclusiveLock ∨ m = ShareUpdateExclusiveLock
       ∨ m = ShareRowExclusiveLock ∨ m = ExclusiveLock ∨ m = AccessExclusiveLock).
Proof.
  intros tag. unfold xact_lock_rel_data, xact_unlock_rel_data.
  split; [|split; [|split]].
  - intros w' Hrun.
    destruct (LockRelationOid_returns _ _ _ _ _ Hrun) as (n & res & ->).
    by exists res.
  - apply UnlockRelationOid_returns.
  - apply LockRelationOid_suspends.
  - apply ShareLock_conflicts.
Qed.

End LockStrengths.

(** Claim C3 as stated fails: at the read-uncommitted level, which is not
    the read-committed level, [xact_is_level_read_committed] answers
    [true]. *)
Lemma xact_is_level_read_committed_read_uncommitted :
  XactIsoLevel (mkBackend 4002 16384 XACT_READ_UNCOMMITTED) ≠ XACT_READ_COMMITTED
  ∧ xact_is_level_read_committed (mkBackend 4002 16384 XACT_READ_UNCOMMITTED) = true.
Proof. split; [discriminate|reflexivity]. Qed.

(** Claim C4 as stated fails: the strength taken by [xact_lock_rel_data]
    conflicts with the strength of a row-level writer, and a session that
    calls [xact_lock_rel_data] while another session holds
    [RowExclusiveLock] on the relation (an INSERT, UPDATE or DELETE in
    progress) is put to sleep. *)
Lemma xact_lock_rel_data_conflicts_with_writer :
  DoLockModesConflict ShareLock RowExclusiveLock = true
  ∧ after (LockRelationOid example_IsSharedRelation example_writer 24576 RowExclusiveLock)
      (xact_lock_rel_data example_IsSharedRelation example_session 24576)
      initial_world = Suspended
  ∧ returns (LockRelationOid example_IsSharedRelation example_writer 24576
               RowExclusiveLock initial_world).
Proof. by vm_compute. Qed.

(** ** Consistency of the lock table *)

Lemma table_consistent_empty : table_consistent ∅.
Proof. intros k1 k2 n1 n2 Hk1. by rewrite lookup_empty in Hk1. Qed.

Lemma table_consistent_singleton (k : LockKey) (n : positive) :
  table_consistent {[k := n]}.
Proof.
  intros k1 k2 n1 n2 [-> _]%lookup_singleton_Some [-> _]%lookup_singleton_Some.
  congruence.
Qed.

(** A table that holds no more keys than a consistent one is consistent. *)
Lemma table_consistent_shrink (t t' : gmap LockKey positive) :
  (∀ k, is_Some (t' !! k) -> is_Some (t !! k)) ->
  table_consistent t -> table_consistent t'.
Proof.
  intros Hsub Ht k1 k2 n1 n2 Hk1 Hk2.
  destruct (Hsub k1 (ex_intro _ n1 Hk1)) as [m1 Hm1].
  destruct (Hsub k2 (ex_intro _ n2 Hk2)) as [m2 Hm2].
  by apply (Ht k1 k2 m1 m2).
Qed.

(** Granting a request that no other backend blocks keeps the table
    consistent. *)
Lemma table_consistent_grant (t : gmap LockKey positive) me tag lockmode n :
  ¬ held_by_others t me tag lockmode ->
  table_consistent t ->
  table_consistent (<[lock_key me tag lockmode := n]> t).
Proof.
  intros Hfree Ht k1 k2 n1 n2 Hk1 Hk2 Hpid Htag.
  assert (∀ k m, t !! k = Some m -> k.1.1 ≠ MyProcPid me -> k.1.2 = tag ->
                 DoLockModesConflict lockmode k.2 = false) as Hnew.
  { intros k m Hk Hkpid Hktag.
    destruct (DoLockModesConflict lockmode k.2) eqn:Hc; [|done].
    destruct Hfree. by exists k, m. }
  apply lookup_insert_Some in Hk1 as [[<- _]|[Hne1 Hk1]];
    apply lookup_insert_Some in Hk2 as [[<- _]|[Hne2 Hk2]]; simpl in *.
  - done.
  - symmetry in Htag. apply (Hnew k2 n2 Hk2); [congruence|done].
  - rewrite DoLockModesConflict_sym. apply (Hnew k1 n1 Hk1); done.
  - by apply (Ht k1 k2 n1 n2).
Qed.

Lemma lock_step_consistent w w' :
  lock_step w w' ->
  table_consistent (lock_table w) -> table_consistent (lock_table w').
Proof.
  intros Hstep Ht.
  destruct Hstep as [me tag lockmode sl dw res w w' Hrun|me tag lockmode sl ok w w' Hrun].
  - unfold LockAcquire in Hrun.
    destruct (lock_table w !! lock_key me tag lockmode) as [n|] eqn:Hk.
    + injection Hrun as _ <-. simpl.
      apply (table_consistent_shrink (lock_table w)); [|done].
      intros k [m Hm]. apply lookup_insert_Some in Hm as [[<- _]|[_ Hm]]; eauto.
    + destruct (conflicts_with_others _ _ _ _) eqn:Hc.
      * destruct dw; [|discriminate]. by injection Hrun as _ <-.
      * injection Hrun as _ <-. simpl.
        apply table_consistent_grant; [|done].
        by apply conflicts_with_others_false.
  - unfold LockRelease in Hrun.
    assert (∀ k, is_Some (lock_table w' !! k) -> is_Some (lock_table w !! k));
      [|by eapply table_consistent_shrink].
    destruct (lock_table w !! lock_key me tag lockmode) as [[n|n|]|] eqn:Hk;
      injection Hrun as _ <-; simpl; intros k [m Hm]; eauto.
    + apply lookup_insert_Some in Hm as [[<- _]|[_ Hm]]; eauto.
    + apply lookup_insert_Some in Hm as [[<- _]|[_ Hm]]; eauto.
    + apply lookup_delete_Some in Hm as [_ Hm]; eauto.
Qed.

(** Every reachable lock table is consistent. *)
Lemma reachable_consistent w : reachable w -> table_consistent (lock_table w).
Proof.
  unfold reachable. revert w.
  apply (rtc_ind_r (fun w => table_consistent (lock_table w))).
  - apply table_consistent_empty.
  - intros w1 w2 _ Hstep IH. by eapply lock_step_consistent.
Qed.

(** ** Computations made of lock-manager transitions *)

Lemma made_of_steps_ret {A : Type} (a : A) : made_of_steps (mret a).
Proof. intros w a' w' [= _ <-]. apply rtc_refl. Qed.

Lemma made_of_steps_bind {A B : Type} (c : M A) (k : A -> M B) :
  made_of_steps c -> (∀ a, made_of_steps (k a)) -> made_of_steps (c ≫= k).
Proof.
  intros Hc Hk w b w'. unfold mbind, M_bind.
  destruct (c w) as [a w1|] eqn:Hcw; [|discriminate].
  intros Hkw. etrans; [by eapply Hc|by eapply Hk].
Qed.

Lemma made_of_steps_LockAcquire me tag lockmode sl dw :
  made_of_steps (LockAcquire me tag lockmode sl dw).
Proof. intros w res w' Hrun. apply rtc_once. by eapply step_acquire. Qed.


Lemma calls_only_on_ret {A : Type} tag (a : A) : calls_only_on tag (mret a).
Proof.
  intros w a' w' [= _ <-]. exists []. by rewrite app_nil_r.
Qed.

Lemma calls_only_on_bind {A B : Type} tag (c : M A) (k : A -> M B) :
  calls_only_on tag c -> (∀ a, calls_only_on tag (k a)) ->
  calls_only_on tag (c ≫= k).
Proof.
  intros Hc Hk w b w'. unfold mbind, M_bind.
  destruct (c w) as [a w1|] eqn:Hcw; [|discriminate].
  intros Hkw.
  destruct (Hc _ _ _ Hcw) as (tr1 & Htr1 & Hall1).
  destruct (Hk _ _ _ _ Hkw) as (tr2 & Htr2 & Hall2).
  exists (tr1 ++ tr2). split; [by rewrite Htr2, Htr1, app_assoc|].
  by apply Forall_app.
Qed.

Lemma calls_only_on_LockAcquire me tag lockmode sl dw :
  calls_only_on tag (LockAcquire me tag lockmode sl dw).
Proof.
  intros w res w'. unfold LockAcquire.
  destruct (lock_table w !! lock_key me tag lockmode).
  - intros [= _ <-]. eexists [_]. split; [done|]. by repeat constructor.
  - destruct (conflicts_with_others _ _ _ _); [destruct dw; [|discriminate]|];
      intros [= _ <-]; eexists [_]; (split; [done|]); by repeat constructor.
Qed.

Lemma calls_only_on_LockRelease me tag lockmode sl :
  calls_only_on tag (LockRelease me tag lockmode sl).
Proof.
  intros w ok w'. unfold LockRelease.
  destruct (lock_table w !! lock_key me tag lockmode) as [[]|];
    intros [= _ <-]; eexists [_]; (split; [done|]); by repeat constructor.
Qed.

Section Serialization.

Variable IsSharedRelation : Oid -> bool.

Lemma made_of_steps_LockRelationOid me relid lockmode :
  made_of_steps (LockRelationOid IsSharedRelation me relid lockmode).
Proof.
  apply made_of_steps_bind; [apply made_of_steps_LockAcquire|].
  intros _. apply made_of_steps_ret.
Qed.





(** A backend that holds [ExclusiveLock] in a consistent table is not
    blocked on it by anybody. *)
Lemma holder_not_blocked (t : gmap LockKey positive) me tag lockmode :
  table_consistent t ->
  holds_lock t me tag lockmode ->
  ¬ held_by_others t me tag lockmode.
Proof.
  intros Ht [n Hn] (k & m & Hk & Hpid & Htag & Hc).
  pose proof (Ht (lock_key me tag lockmode) k n m Hn Hk) as Hok.
  simpl in Hok. rewrite Hok in Hc; [discriminate|congruence|congruence].
Qed.

(** Claim C5.  In a consistent lock table,
    [xact_is_table_being_modified] makes one conditional ([dontWait])
    attempt at [ExclusiveLock] on the relation and nothing else but the
    release that follows a successful attempt.  The attempt fails exactly
    when another backend holds a conflicting lock on the relation; then
    [true] is returned and nothing was acquired.  Otherwise the attempt
    succeeds, the lock is released at once and [false] is returned.  In
    both cases the lock table is the one the call started from. *)
Theorem xact_is_table_being_modified_spec me relid w :
  table_consistent (lock_table w) ->
  let tag := SetLocktagRelationOid IsSharedRelation me relid in
  let pid := MyProcPid me in
  ∃ res,
    (res = LOCKACQUIRE_NOT_AVAIL <->
     held_by_others (lock_table w) me tag ExclusiveLock)
    ∧ xact_is_table_being_modified IsSharedRelation me relid w =
        Returned (bool_decide (res = LOCKACQUIRE_NOT_AVAIL))
          {| lock_table := lock_table w;
             lock_trace := lock_trace w ++
               EvLockAcquire pid tag ExclusiveLock true res ::
               (if bool_decide (res = LOCKACQUIRE_NOT_AVAIL) then []
                else [EvLockRelease pid tag ExclusiveLock true]) |}.
Proof.
  intros Ht tag pid.
  destruct (xact_is_table_being_modified_run IsSharedRelation me relid w)
    as (res & Hrun & Hres).
  exists res. split; [|exact Hrun].
  rewrite Hres. split; [by intros [_ ?]|].
  intros Hothers. split; [|done].
  intros Hheld. by apply (holder_not_blocked _ _ _ _ Ht Hheld).
Qed.

Lemma probe_run_tags pid tag lockmode tr :
  probe_run pid tag lockmode tr -> Forall (fun e => event_tag e = tag) tr.
Proof.
  induction 1 as [|? ? ? ? Hstep]; [constructor|].
  apply Forall_app. split; [|done]. destruct Hstep; repeat constructor.
Qed.

(** Taking a lock on one object does not change who is blocked on
    another object. *)
Lemma insert_elsewhere_held_by_others (t : gmap LockKey positive) k n me tag lockmode :
  k.1.2 ≠ tag ->
  held_by_others (<[k := n]> t) me tag lockmode <-> held_by_others t me tag lockmode.
Proof.
  intros Hne. unfold held_by_others.
  split; intros (k' & m & Hk' & Hb); exists k', m; (split; [|done]);
    destruct Hb as (_ & Htag & _).
  - apply lookup_insert_Some in Hk' as [[<- _]|[_ ?]]; [done|done].
  - rewrite lookup_insert_ne; [done|]. intros <-. done.
Qed.

Lemma SetLocktagRelationOid_eq b1 b2 relid :
  SetLocktagRelationOid IsSharedRelation b1 relid =
    SetLocktagRelationOid IsSharedRelation b2 relid <->
  IsSharedRelation relid = true ∨ MyDatabaseId b1 = MyDatabaseId b2.
Proof.
  unfold SetLocktagRelationOid, SET_LOCKTAG_RELATION.
  destruct (IsSharedRelation relid).
  - split; [by left|done].
  - split.
    + intros Heq. injection Heq as Hdb. by right.
    + intros [Hshared|Hdb]; [discriminate|by rewrite Hdb].
Qed.

Lemma calls_only_on_LockRelationOid me relid lockmode :
  calls_only_on (SetLocktagRelationOid IsSharedRelation me relid)
    (LockRelationOid IsSharedRelation me relid lockmode).
Proof.
  apply calls_only_on_bind; [apply calls_only_on_LockAcquire|].
  intros _. apply calls_only_on_ret.
Qed.

Lemma calls_only_on_UnlockRelationOid me relid lockmode :
  calls_only_on (SetLocktagRelationOid IsSharedRelation me relid)
    (UnlockRelationOid IsSharedRelation me relid lockmode).
Proof.
  apply calls_only_on_bind; [apply calls_only_on_LockRelease|].
  intros _. apply calls_only_on_ret.
Qed.

Lemma calls_only_on_xact_is_table_being_modified me relid :
  calls_only_on (SetLocktagRelationOid IsSharedRelation me relid)
    (xact_is_table_being_modified IsSharedRelation me relid).
Proof.
  apply calls_only_on_bind.
  - apply calls_only_on_bind; [apply calls_only_on_LockAcquire|].
    intros []; apply calls_only_on_ret.
  - intros []; [|apply calls_only_on_ret].
    apply calls_only_on_bind; [apply calls_only_on_UnlockRelationOid|].
    intros _. apply calls_only_on_ret.
Qed.

Lemma calls_only_on_xact_bgw_conflicting_lock_exists me relid :
  calls_only_on (SetLocktagRelationOid IsSharedRelation me relid)
    (xact_bgw_conflicting_lock_exists IsSharedRelation me relid).
Proof.
  intros w b w' Hrun.
  destruct (bgw_lock_loop_run IsSharedRelation me relid _
              ShareUpdateExclusiveLock w eq_refl) as (b' & tr & Hloop & _ & Htr).
  unfold xact_bgw_conflicting_lock_exists in Hrun. rewrite Hloop in Hrun.
  injection Hrun as _ <-. exists tr. split; [done|].
  by eapply probe_run_tags.
Qed.

Lemma xact_lock_partitioned_rel_holds me relid w w' :
  xact_lock_partitioned_rel IsSharedRelation me relid w = Returned tt w' ->
  holds_lock (lock_table w') me (SetLocktagRelationOid IsSharedRelation me relid)
    ShareUpdateExclusiveLock.
Proof.
  intros Hrun. apply LockRelationOid_returns in Hrun as (n & res & ->).
  simpl. unfold holds_lock. rewrite lookup_insert_eq. by exists n.
Qed.

(** Claim C7.  The strength [xact_lock_partitioned_rel] acquires,
    [ShareUpdateExclusiveLock], conflicts with itself and does not
    conflict with the strength of ordinary reads ([AccessShareLock]).
    A call that returns is a transition of the lock manager after which
    the caller holds that strength on the relation.  In every state the
    lock manager can reach, no two distinct backends hold it on the same
    relation at once, and a backend that asks for it while another one
    holds it is suspended. *)
Theorem partition_edit_lock_exclusive :
  (DoLockModesConflict ShareUpdateExclusiveLock ShareUpdateExclusiveLock = true
   ∧ DoLockModesConflict ShareUpdateExclusiveLock AccessShareLock = false
   ∧ DoLockModesConflict AccessShareLock ShareUpdateExclusiveLock = false)
  ∧ (∀ me relid w w',
       xact_lock_partitioned_rel IsSharedRelation me relid w = Returned tt w' ->
       (reachable w -> reachable w')
       ∧ holds_lock (lock_table w') me
           (SetLocktagRelationOid IsSharedRelation me relid) ShareUpdateExclusiveLock)
  ∧ (∀ w, reachable w ->
       ∀ b1 b2 relid,
         MyProcPid b1 ≠ MyProcPid b2 ->
         SetLocktagRelationOid IsSharedRelation b1 relid =
           SetLocktagRelationOid IsSharedRelation b2 relid ->
         holds_lock (lock_table w) b1
           (SetLocktagRelationOid IsSharedRelation b1 relid) ShareUpdateExclusiveLock ->
         ¬ holds_lock (lock_table w) b2
             (SetLocktagRelationOid IsSharedRelation b2 relid) ShareUpdateExclusiveLock
         ∧ xact_lock_partitioned_rel IsSharedRelation b2 relid w = Suspended).
Proof.
  split; [by vm_compute|split].
  - intros me relid w w' Hrun. split.
    + intros Hreach. unfold reachable. etrans; [exact Hreach|].
      exact (made_of_steps_LockRelationOid me relid ShareUpdateExclusiveLock w tt w' Hrun).
    + by apply (xact_lock_partitioned_rel_holds me relid w).
  - intros w Hreach b1 b2 relid Hpid Htag [n1 Hheld1].
    apply reachable_consistent in Hreach.
    assert (¬ holds_lock (lock_table w) b2
              (SetLocktagRelationOid IsSharedRelation b2 relid)
              ShareUpdateExclusiveLock) as Hnot.
    { intros [n2 Hheld2].
      pose proof (Hreach _ _ n1 n2 Hheld1 Hheld2 Hpid Htag) as Hok.
      simpl in Hok. by vm_compute in Hok. }
    split; [exact Hnot|].
    apply LockRelationOid_suspends. split; [exact Hnot|].
    exists (lock_key b1 (SetLocktagRelationOid IsSharedRelation b1 relid)
              ShareUpdateExclusiveLock), n1.
    split; [exact Hheld1|]. split; [exact Hpid|]. split; [exact Htag|].
    by vm_compute.
Qed.

(** Claim C10.  The tag [SetLocktagRelationOid] builds carries the
    invalid (zero) database identifier for a shared catalog relation and
    the session's own database identifier otherwise, and it is the tag of
    every lock-manager call the two probes and the four lock and unlock
    operations make.  So for a shared relation the tags of any two sessions
    coincide, whatever their databases, and they contend: once one session
    has taken the partition lock, the other one's request for it is
    suspended and its modification probe answers [true].  For a relation
    that is not shared, sessions of different databases get different
    tags, and the lock one of them takes does not change whether the
    other one's request is suspended. *)
Theorem SetLocktagRelationOid_database_scope :
  (∀ me relid,
     SetLocktagRelationOid IsSharedRelation me relid =
       SET_LOCKTAG_RELATION
         (if IsSharedRelation relid then InvalidOid else MyDatabaseId me) relid)
  ∧ (∀ me relid,
       let tag := SetLocktagRelationOid IsSharedRelation me relid in
       calls_only_on tag (xact_bgw_conflicting_lock_exists IsSharedRelation me relid)
       ∧ calls_only_on tag (xact_is_table_being_modified IsSharedRelation me relid)
       ∧ calls_only_on tag (xact_lock_partitioned_rel IsSharedRelation me relid)
       ∧ calls_only_on tag (xact_unlock_partitioned_rel IsSharedRelation me relid)
       ∧ calls_only_on tag (xact_lock_rel_data IsSharedRelation me relid)
       ∧ calls_only_on tag (xact_unlock_rel_data IsSharedRelation me relid))
  ∧ (∀ b1 b2 relid,
       IsSharedRelation relid = true ->
       SetLocktagRelationOid IsSharedRelation b1 relid =
         SetLocktagRelationOid IsSharedRelation b2 relid)
  ∧ (∀ b1 b2 relid,
       IsSharedRelation relid = false ->
       MyDatabaseId b1 ≠ MyDatabaseId b2 ->
       SetLocktagRelationOid IsSharedRelation b1 relid ≠
         SetLocktagRelationOid IsSharedRelation b2 relid)
  ∧ (∀ b1 b2 relid w w1,
       IsSharedRelation relid = true ->
       MyProcPid b1 ≠ MyProcPid b2 ->
       xact_lock_partitioned_rel IsSharedRelation b1 relid w = Returned tt w1 ->
       (¬ holds_lock (lock_table w1) b2
            (SetLocktagRelationOid IsSharedRelation b2 relid) ShareUpdateExclusiveLock ->
        xact_lock_partitioned_rel IsSharedRelation b2 relid w1 = Suspended)
       ∧ (¬ holds_lock (lock_table w1) b2
              (SetLocktagRelationOid IsSharedRelation b2 relid) ExclusiveLock ->
          ∃ w2, xact_is_table_being_modified IsSharedRelation b2 relid w1 =
                  Returned true w2))
  ∧ (∀ b1 b2 relid w w1,
       IsSharedRelation relid = false ->
       MyDatabaseId b1 ≠ MyDatabaseId b2 ->
       xact_lock_partitioned_rel IsSharedRelation b1 relid w = Returned tt w1 ->
       (xact_lock_partitioned_rel IsSharedRelation b2 relid w1 = Suspended <->
        xact_lock_partitioned_rel IsSharedRelation b2 relid w = Suspended)).
Proof.
  split; [done|]. split; [|split; [|split; [|split]]].
  - intros me relid tag.
    split; [apply calls_only_on_xact_bgw_conflicting_lock_exists|].
    split; [apply calls_only_on_xact_is_table_being_modified|].
    split; [apply calls_only_on_LockRelationOid|].
    split; [apply calls_only_on_UnlockRelationOid|].
    split; [apply calls_only_on_LockRelationOid|apply calls_only_on_UnlockRelationOid].
  - intros b1 b2 relid Hshared. apply SetLocktagRelationOid_eq. by left.
  - intros b1 b2 relid Hshared Hdb Heq.
    apply SetLocktagRelationOid_eq in Heq as [Heq|Heq]; congruence.
  - intros b1 b2 relid w w1 Hshared Hpid Hrun.
    apply xact_lock_partitioned_rel_holds in Hrun as [n1 Hheld1].
    assert (SetLocktagRelationOid IsSharedRelation b1 relid =
              SetLocktagRelationOid IsSharedRelation b2 relid) as Htag
      by (apply SetLocktagRelationOid_eq; by left).
    assert (∀ lockmode,
              DoLockModesConflict lockmode ShareUpdateExclusiveLock = true ->
              held_by_others (lock_table w1) b2
                (SetLocktagRelationOid IsSharedRelation b2 relid) lockmode) as Hblocked.
    { intros lockmode Hc.
      exists (lock_key b1 (SetLocktagRelationOid IsSharedRelation b1 relid)
                ShareUpdateExclusiveLock), n1.
      split; [exact Hheld1|]. split; [exact Hpid|]. split; [exact Htag|exact Hc]. }
    split.
    + intros Hnot. apply LockRelationOid_suspends. split; [exact Hnot|].
      by apply Hblocked.
    + intros Hnot.
      destruct (xact_is_table_being_modified_run IsSharedRelation b2 relid w1)
        as (res & Hprobe & Hres).
      rewrite Hprobe. rewrite bool_decide_eq_true_2; [by eexists|].
      apply Hres. split; [exact Hnot|]. by apply Hblocked.
  - intros b1 b2 relid w w1 Hshared Hdb Hrun.
    assert (SetLocktagRelationOid IsSharedRelation b1 relid ≠
              SetLocktagRelationOid IsSharedRelation b2 relid) as Htag.
    { intros Heq. apply SetLocktagRelationOid_eq in Heq as [Heq|Heq]; congruence. }
    apply LockRelationOid_returns in Hrun as (n & res & ->).
    unfold xact_lock_partitioned_rel. rewrite !LockRelationOid_suspends. simpl.
    rewrite insert_elsewhere_held_by_others by done.
    unfold holds_lock. rewrite lookup_insert_ne; [done|].
    unfold lock_key. congruence.
Qed.

End Serialization.

Section RangeSearchFacts.

Variable Datum : Type.
Variable cmp_func : Datum -> Datum -> Z.

(** The comparison function is a total preorder's: swapping the arguments
    swaps the sign, and "not above" is transitive. *)
Hypothesis cmp_flip : ∀ a b, cmp_func a b < 0 <-> 0 < cmp_func b a.
Hypothesis cmp_trans :
  ∀ a b c, cmp_func a b <= 0 -> cmp_func b c <= 0 -> cmp_func a c <= 0.

Lemma cmp_lt_le a b c :
  cmp_func a b < 0 -> cmp_func b c <= 0 -> cmp_func a c < 0.
Proof.
  intros Hab Hbc.
  destruct (Z.lt_ge_cases (cmp_func a c) 0) as [|Hac]; [done|].
  assert (cmp_func c a <= 0) as Hca.
  { destruct (Z.le_gt_cases (cmp_func c a) 0) as [|Hpos]; [done|].
    apply cmp_flip in Hpos. lia. }
  pose proof (cmp_trans b c a Hbc Hca) as Hba.
  apply cmp_flip in Hab. lia.
Qed.

Lemma cmp_ge_le a b c :
  0 <= cmp_func a b -> cmp_func c b <= 0 -> 0 <= cmp_func a c.
Proof.
  intros Hab Hcb.
  assert (cmp_func b a <= 0) as Hba.
  { destruct (Z.le_gt_cases (cmp_func b a) 0) as [|Hpos]; [done|].
    apply cmp_flip in Hpos. lia. }
  pose proof (cmp_trans c b a Hcb Hba) as Hca.
  destruct (Z.lt_ge_cases (cmp_func a c) 0) as [Hneg|]; [|done].
  apply cmp_flip in Hneg. lia.
Qed.

Abbreviation bsearch := (range_bsearch Datum cmp_func).
Abbreviation contains := (range_contains Datum cmp_func).

Lemma range_bsearch_unroll ranges value lo hi :
  bsearch ranges value lo hi =
    if decide (lo < hi)%nat then
      match ranges !! ((lo + hi) / 2)%nat with
      | None => None
      | Some re =>
          if cmp_func value (min re) <? 0 then
            bsearch ranges value lo ((lo + hi) / 2)%nat
          else if 0 <=? cmp_func value (max re) then
            bsearch ranges value ((lo + hi) / 2 + 1)%nat hi
          else Some (((lo + hi) / 2)%nat, re)
      end
    else None.
Proof.
  rewrite (range_bsearch_equation_1 Datum cmp_func ranges value lo hi).
  by destruct (decide (lo < hi)%nat).
Qed.

Lemma midpoint_bounds (lo hi : nat) :
  (lo < hi)%nat -> (lo <= (lo + hi) / 2 < hi)%nat.
Proof.
  intros Hlt.
  split; [apply Nat.div_le_lower_bound|apply Nat.Div0.div_lt_upper_bound]; lia.
Qed.

(** What the search returns is an entry of the sequence, inside the
    window, whose interval contains the value. *)
Lemma range_bsearch_found ranges value (n : nat) :
  ∀ lo hi i re,
    (hi - lo <= n)%nat ->
    bsearch ranges value lo hi = Some (i, re) ->
    ranges !! i = Some re ∧ contains re value ∧ (lo <= i < hi)%nat.
Proof.
  induction n as [|n IH]; intros lo hi i re Hn; rewrite range_bsearch_unroll;
    destruct (decide (lo < hi)%nat) as [Hlt|]; try done; try lia.
  pose proof (midpoint_bounds lo hi Hlt) as Hmid.
  destruct (ranges !! ((lo + hi) / 2)%nat) as [re_mid|] eqn:Hre; [|done].
  destruct (Z.ltb_spec (cmp_func value (min re_mid)) 0) as [Hbelow|Hmin].
  - intros Hrec. apply IH in Hrec as (? & ? & ?); [|lia].
    split; [done|split; [done|lia]].
  - destruct (Z.leb_spec 0 (cmp_func value (max re_mid))) as [Habove|Hmax].
    + intros Hrec. apply IH in Hrec as (? & ? & ?); [|lia].
      split; [done|split; [done|lia]].
    + intros [= <- <-]. split; [done|split; [by split|exact Hmid]].
Qed.

(** In a sorted sequence, when every entry before the window ends at or
    below the value and every entry after it begins above the value, a
    search that finds nothing means that no entry contains the value. *)
Lemma range_bsearch_none ranges value (n : nat) :
  ranges_sorted Datum cmp_func ranges ->
  ∀ lo hi,
    (hi - lo <= n)%nat -> (hi <= length ranges)%nat ->
    (∀ i re, (i < lo)%nat -> ranges !! i = Some re ->
             0 <= cmp_func value (max re)) ->
    (∀ i re, (hi <= i)%nat -> ranges !! i = Some re ->
             cmp_func value (min re) < 0) ->
    bsearch ranges value lo hi = None ->
    ∀ i re, ranges !! i = Some re -> ¬ contains re value.
Proof.
  intros [Hwf Hsorted].
  induction n as [|n IH]; intros lo hi Hn Hlen Hleft Hright;
    rewrite range_bsearch_unroll;
    destruct (decide (lo < hi)%nat) as [Hlt|Hge]; try lia;
    try solve
      [intros _ i re Hi [Hmin Hmax];
       destruct (decide (i < lo)%nat) as [Hi_lo|Hi_hi];
       [pose proof (Hleft i re Hi_lo Hi); lia
       |assert (hi <= i)%nat as Hi_ge by lia;
        pose proof (Hright i re Hi_ge Hi); lia]].
  pose proof (midpoint_bounds lo hi Hlt) as Hmid.
  destruct (lookup_lt_is_Some_2 ranges ((lo + hi) / 2)%nat) as [re_mid Hre]; [lia|].
  rewrite Hre.
  destruct (Z.ltb_spec (cmp_func value (min re_mid)) 0) as [Hbelow|Hmin].
  - apply IH; [lia|lia|done|].
    intros i re Hi Hlook.
    destruct (decide (i = (lo + hi) / 2)%nat) as [->|Hne]; [congruence|].
    destruct (decide (hi <= i)%nat); [by eapply Hright|].
    eapply cmp_lt_le; [|eapply (Hsorted _ i _ _ Hre Hlook); lia].
    eapply cmp_lt_le; [exact Hbelow|by eapply Hwf].
  - destruct (Z.leb_spec 0 (cmp_func value (max re_mid))) as [Habove|Hmax]; [|done].
    apply IH; [lia|lia| |done].
    intros i re Hi Hlook.
    destruct (decide (i = (lo + hi) / 2)%nat) as [->|Hne]; [congruence|].
    destruct (decide (i < lo)%nat); [by eapply Hleft|].
    eapply cmp_ge_le; [|eapply (Hsorted i _ _ _ Hlook Hre); lia].
    eapply cmp_ge_le; [exact Habove|by eapply Hwf].
Qed.

Abbreviation sorted := (ranges_sorted Datum cmp_func).
Abbreviation search := (search_range_partition_eq Datum cmp_func).

(** A value below the first interval is below every bound. *)
Lemma below_first ranges value first_re :
  sorted ranges -> head ranges = Some first_re ->
  cmp_func value (min first_re) < 0 ->
  ∀ re, re ∈ ranges ->
    cmp_func value (min re) < 0 ∧ cmp_func value (max re) < 0.
Proof.
  intros [Hwf Hsorted] Hhead Hbelow re [i Hi]%list_elem_of_lookup.
  rewrite head_lookup in Hhead.
  assert (cmp_func value (min re) < 0) as Hmin.
  { destruct (decide (i = 0)%nat) as [->|Hpos]; [congruence|].
    eapply cmp_lt_le; [|eapply (Hsorted 0%nat i _ _ Hhead Hi); lia].
    eapply cmp_lt_le; [exact Hbelow|by eapply Hwf]. }
  split; [exact Hmin|]. eapply cmp_lt_le; [exact Hmin|by eapply Hwf].
Qed.

(** A value at or above the last interval's upper bound is at or above
    every bound. *)
Lemma above_last ranges value last_re :
  sorted ranges -> last ranges = Some last_re ->
  0 <= cmp_func value (max last_re) ->
  ∀ re, re ∈ ranges ->
    0 <= cmp_func value (min re) ∧ 0 <= cmp_func value (max re).
Proof.
  intros [Hwf Hsorted] Hlast Habove re [i Hi]%list_elem_of_lookup.
  rewrite last_lookup in Hlast.
  pose proof (lookup_lt_Some _ _ _ Hi) as Hlen.
  assert (0 <= cmp_func value (max re)) as Hmax.
  { destruct (decide (i = pred (length ranges))) as [->|Hne]; [congruence|].
    eapply cmp_ge_le; [|eapply (Hsorted i _ _ _ Hi Hlast); lia].
    eapply cmp_ge_le; [exact Habove|by eapply Hwf]. }
  split; [|exact Hmax]. eapply cmp_ge_le; [exact Hmax|by eapply Hwf].
Qed.

(** The three ways the search can end, each with what it says about the
    sequence. *)
Lemma search_range_partition_eq_cases ranges value :
  sorted ranges ->
  (search value ranges = (SEARCH_RANGEREL_OUT_OF_RANGE, None)
   ∧ outside_span Datum cmp_func ranges value
   ∧ ¬ covered Datum cmp_func ranges value
   ∧ ¬ between_entries Datum cmp_func ranges value)
  ∨ (∃ i re,
       search value ranges = (SEARCH_RANGEREL_FOUND, Some (i, re))
       ∧ ranges !! i = Some re ∧ contains re value
       ∧ ¬ outside_span Datum cmp_func ranges value)
  ∨ (search value ranges = (SEARCH_RANGEREL_GAP, None)
     ∧ ¬ outside_span Datum cmp_func ranges value
     ∧ ¬ covered Datum cmp_func ranges value
     ∧ between_entries Datum cmp_func ranges value).
Proof.
  intros Hsorted. unfold search_range_partition_eq.
  destruct (head ranges) as [first_re|] eqn:Hhead.
  2: { left. apply head_None in Hhead as ->. split; [done|]. split; [by left|].
       split; [intros (re & Hin & _)|intros (re & _ & Hin & _)];
         by apply elem_of_nil in Hin. }
  destruct (last ranges) as [last_re|] eqn:Hlast.
  2: { apply last_None in Hlast. by subst. }
  pose proof (head_Some_elem_of _ _ Hhead) as Hfirst_in.
  pose proof (last_Some_elem_of _ _ Hlast) as Hlast_in.
  destruct (Z.ltb_spec (cmp_func value (min first_re)) 0) as [Hbelow|Hmin]; simpl.
  { left. pose proof (below_first _ _ _ Hsorted Hhead Hbelow) as Hall.
    split; [done|]. split; [right; left; eauto|].
    split.
    - intros (re & Hin & Hre & _). destruct (Hall re Hin). lia.
    - intros (re1 & _ & Hin & _ & Hre & _). destruct (Hall re1 Hin). lia. }
  destruct (Z.leb_spec 0 (cmp_func value (max last_re))) as [Habove|Hmax].
  { left. pose proof (above_last _ _ _ Hsorted Hlast Habove) as Hall.
    split; [done|]. split; [right; right; eauto|].
    split.
    - intros (re & Hin & _ & Hre). destruct (Hall re Hin). lia.
    - intros (_ & re2 & _ & Hin & _ & Hre). destruct (Hall re2 Hin). lia. }
  assert (¬ outside_span Datum cmp_func ranges value) as Hinside.
  { intros [->|[(re & Hre & Hlt)|(re & Hre & Hge)]];
      [done|rewrite Hhead in Hre|rewrite Hlast in Hre];
      injection Hre as <-; lia. }
  right.
  destruct (bsearch ranges value 0 (length ranges)) as [[i re]|] eqn:Hsearch.
  - left. exists i, re.
    apply (range_bsearch_found _ _ (length ranges)) in Hsearch as (Hi & Hre & _); [|lia].
    done.
  - right.
    assert (∀ i re, ranges !! i = Some re -> ¬ contains re value) as Hnone.
    { apply (range_bsearch_none ranges value (length ranges) Hsorted 0%nat
               (length ranges)); [lia|lia|intros; lia| |done].
      intros i re Hi Hlook. apply lookup_lt_Some in Hlook. lia. }
    split; [done|]. split; [done|]. split.
    + intros (re & [i Hi]%list_elem_of_lookup & Hre). by apply (Hnone i re).
    + exists first_re, last_re. split; [done|]. split; [done|].
      apply list_elem_of_lookup in Hfirst_in as [i Hi].
      apply list_elem_of_lookup in Hlast_in as [j Hj].
      pose proof (Hnone i first_re Hi) as Hfirst.
      pose proof (Hnone j last_re Hj) as Hlst.
      unfold range_contains in Hfirst, Hlst. lia.
Qed.

(** Claim C6.  For a comparison function that is a total preorder's, a
    sorted sequence of non-overlapping entries and any value, the range
    search answers [SEARCH_RANGEREL_FOUND] if and only if some entry's
    half-open interval contains the value (and then hands back such an
    entry with its position), [SEARCH_RANGEREL_GAP] if and only if the
    value lies between two entries and no entry covers it, and
    [SEARCH_RANGEREL_OUT_OF_RANGE] in every other case, which is when the
    sequence is empty or the value is below the first interval or at or
    above the last interval's upper bound. *)
Theorem search_range_partition_eq_spec ranges value :
  sorted ranges ->
  (fst (search value ranges) = SEARCH_RANGEREL_FOUND <->
   covered Datum cmp_func ranges value)
  ∧ (fst (search value ranges) = SEARCH_RANGEREL_GAP <->
     between_entries Datum cmp_func ranges value
     ∧ ¬ covered Datum cmp_func ranges value)
  ∧ (fst (search value ranges) = SEARCH_RANGEREL_OUT_OF_RANGE <->
     ¬ covered Datum cmp_func ranges value
     ∧ ¬ between_entries Datum cmp_func ranges value)
  ∧ (fst (search value ranges) = SEARCH_RANGEREL_OUT_OF_RANGE <->
     outside_span Datum cmp_func ranges value)
  ∧ (fst (search value ranges) = SEARCH_RANGEREL_FOUND <->
     ∃ i re, snd (search value ranges) = Some (i, re)
             ∧ ranges !! i = Some re ∧ contains re value).
Proof.
  intros Hsorted.
  destruct (search_range_partition_eq_cases ranges value Hsorted)
    as [(-> & Hout & Hncov & Hnbet)
       |[(i & re & -> & Hi & Hre & Hin)|(-> & Hin & Hncov & Hbet)]]; simpl.
  - repeat split; try done; try tauto.
    intros (? & ? & ? & _). discriminate.
  - assert (covered Datum cmp_func ranges value) as Hcov.
    { exists re. split; [|done]. apply list_elem_of_lookup. by exists i. }
    repeat split; try done; try tauto.
    intros _. by exists i, re.
  - repeat split; try done; try tauto.
    intros (? & ? & ? & _). discriminate.
Qed.

End RangeSearchFacts.

(** ** The theorems at concrete inputs *)

Lemma example_cmp_flip (a b : Z) : example_cmp a b < 0 <-> 0 < example_cmp b a.
Proof. unfold example_cmp. lia. Qed.

Lemma example_cmp_trans (a b c : Z) :
  example_cmp a b <= 0 -> example_cmp b c <= 0 -> example_cmp a c <= 0.
Proof. unfold example_cmp. lia. Qed.

Lemma example_ranges_sorted : ranges_sorted Z example_cmp example_ranges.
Proof.
  split.
  - intros i re Hi.
    repeat (destruct i as [|i]; simpl in Hi; try discriminate;
            try (injection Hi as <-; by vm_compute)).
  - intros i j re_i re_j Hi Hj Hlt.
    repeat (destruct i as [|i]; simpl in Hi; try discriminate);
      injection Hi as <-;
      repeat (destruct j as [|j]; simpl in Hj; try discriminate; try lia);
      injection Hj as <-; by vm_compute.
Qed.

(** The scenarios of the specification. *)
Example search_found_in_second_partition :
  search_range_partition_eq Z example_cmp 15
    [mkRangeEntry 24577 0 10; mkRangeEntry 24578 10 20] =
  (SEARCH_RANGEREL_FOUND, Some (1%nat, mkRangeEntry 24578 10 20)).
Proof. reflexivity. Qed.

Example search_above_last_partition :
  search_range_partition_eq Z example_cmp 25
    [mkRangeEntry 24577 0 10; mkRangeEntry 24578 10 20] =
  (SEARCH_RANGEREL_OUT_OF_RANGE, None).
Proof. reflexivity. Qed.

Example search_in_gap :
  search_range_partition_eq Z example_cmp 15
    [mkRangeEntry 24577 0 10; mkRangeEntry 24578 20 30] =
  (SEARCH_RANGEREL_GAP, None).
Proof. reflexivity. Qed.

(** Claim C6 at the value 15 and the sequence [[0,10) [20,30) [30,40)]:
    the value sits in the hole between the first two partitions. *)
Lemma search_range_partition_eq_spec_witness :
  ranges_sorted Z example_cmp example_ranges
  ∧ fst (search_range_partition_eq Z example_cmp 15 example_ranges) =
      SEARCH_RANGEREL_GAP
  ∧ between_entries Z example_cmp example_ranges 15
  ∧ ¬ covered Z example_cmp example_ranges 15.
Proof.
  split; [exact example_ranges_sorted|]. split; [reflexivity|].
  apply (proj1 (proj1 (proj2
    (search_range_partition_eq_spec Z example_cmp example_cmp_flip
       example_cmp_trans example_ranges 15 example_ranges_sorted)))).
  reflexivity.
Defined.

(** Claim C5 in that world: the probe of another session of the same
    database. *)
Lemma xact_is_table_being_modified_spec_witness :
  table_consistent (lock_table example_world_with_writer)
  ∧ ∃ res,
      (res = LOCKACQUIRE_NOT_AVAIL <->
       held_by_others (lock_table example_world_with_writer) example_session
         (SetLocktagRelationOid example_IsSharedRelation example_session 24576)
         ExclusiveLock)
      ∧ xact_is_table_being_modified example_IsSharedRelation example_session 24576
          example_world_with_writer =
        Returned (bool_decide (res = LOCKACQUIRE_NOT_AVAIL))
          {| lock_table := lock_table example_world_with_writer;
             lock_trace := lock_trace example_world_with_writer ++
               EvLockAcquire (MyProcPid example_session)
                 (SetLocktagRelationOid example_IsSharedRelation example_session 24576)
                 ExclusiveLock true res ::
               (if bool_decide (res = LOCKACQUIRE_NOT_AVAIL) then []
                else [EvLockRelease (MyProcPid example_session)
                        (SetLocktagRelationOid example_IsSharedRelation
                           example_session 24576)
                        ExclusiveLock true]) |}.
Proof.
  split; [apply table_consistent_singleton|].
  apply (xact_is_table_being_modified_spec example_IsSharedRelation
           example_session 24576 example_world_with_writer).
  apply table_consistent_singleton.
Defined.

(** The same probe, run: the writer's lock makes it answer [true], and
    without the writer it answers [false] after taking and releasing the
    lock. *)
Example xact_is_table_being_modified_with_writer :
  observed
    [lock_key example_writer (SET_LOCKTAG_RELATION 16384 24576) RowExclusiveLock;
     lock_key example_session (SET_LOCKTAG_RELATION 16384 24576) ExclusiveLock]
    (xact_is_table_being_modified example_IsSharedRelation example_session 24576
       example_world_with_writer) =
  Some (true,
        [EvLockAcquire 4002 (SET_LOCKTAG_RELATION 16384 24576) ExclusiveLock true
           LOCKACQUIRE_NOT_AVAIL],
        [Some 1%positive; None]).
Proof. vm_compute. reflexivity. Qed.

Example xact_is_table_being_modified_alone :
  observed
    [lock_key example_session (SET_LOCKTAG_RELATION 16384 24576) ExclusiveLock]
    (xact_is_table_being_modified example_IsSharedRelation example_session 24576
       initial_world) =
  Some (false,
        [EvLockAcquire 4002 (SET_LOCKTAG_RELATION 16384 24576) ExclusiveLock true
           LOCKACQUIRE_OK;
         EvLockRelease 4002 (SET_LOCKTAG_RELATION 16384 24576) ExclusiveLock true],
        [None]).
Proof. vm_compute. reflexivity. Qed.

(** The probe for held locks, run after the session took the data lock
    twice: it stops with [true] at [ShareLock], and both references are
    still there. *)
Example xact_bgw_conflicting_lock_exists_after_data_lock :
  observed
    [lock_key example_session (SET_LOCKTAG_RELATION 16384 24576) ShareLock;
     lock_key example_session (SET_LOCKTAG_RELATION 16384 24576)
       ShareUpdateExclusiveLock]
    (after (xact_lock_rel_data example_IsSharedRelation example_session 24576)
       (after (xact_lock_rel_data example_IsSharedRelation example_session 24576)
          (fun w =>
             xact_bgw_conflicting_lock_exists example_IsSharedRelation
               example_session 24576
               {| lock_table := lock_table w; lock_trace := [] |}))
       initial_world) =
  Some (true,
        [EvLockAcquire 4002 (SET_LOCKTAG_RELATION 16384 24576)
           ShareUpdateExclusiveLock true LOCKACQUIRE_OK;
         EvLockRelease 4002 (SET_LOCKTAG_RELATION 16384 24576)
           ShareUpdateExclusiveLock true;
         EvLockAcquire 4002 (SET_LOCKTAG_RELATION 16384 24576)
           ShareLock true LOCKACQUIRE_ALREADY_HELD;
         EvLockRelease 4002 (SET_LOCKTAG_RELATION 16384 24576)
           ShareLock true],
        [Some 2%positive; None]).
Proof. vm_compute. reflexivity. Qed.

(** Sessions of different databases contend on a shared catalog (1262)
    and not on an ordinary relation; sessions of one database contend on
    an ordinary relation. *)
Example shared_relation_contention :
  after (xact_lock_partitioned_rel example_IsSharedRelation example_session 1262)
    (xact_lock_partitioned_rel example_IsSharedRelation example_other_db_session 1262)
    initial_world = Suspended
  ∧ returns
      (after (xact_lock_partitioned_rel example_IsSharedRelation example_session 24576)
         (xact_lock_partitioned_rel example_IsSharedRelation
            example_other_db_session 24576)
         initial_world)
  ∧ after (xact_lock_partitioned_rel example_IsSharedRelation example_session 24576)
      (xact_lock_partitioned_rel example_IsSharedRelation example_writer 24576)
      initial_world = Suspended.
Proof. vm_compute. repeat split. Qed.

(** * More about the lock coordinator *)

(** The value a run returned, if it returned. *)
Definition result {A : Type} (o : Outcome A) : option A :=
  match o with
  | Returned a _ => Some a
  | Suspended => None
  end.

(** The world a run ends in; a suspended run has changed nothing. *)
Definition world_after {A : Type} (o : Outcome A) (w : World) : World :=
  match o with
  | Returned _ w' => w'
  | Suspended => w
  end.

(** One reference less: what a release makes of a table entry. *)
Definition one_reference_less (held : option positive) : option positive :=
  match held with
  | None => None
  | Some 1%positive => None
  | Some n => Some (Pos.pred n)
  end.

Section LockUnlock.

Variable IsSharedRelation : Oid -> bool.

(** Unlocking right after a lock request was granted gives back the
    table the request started from. *)
Lemma LockRelationOid_UnlockRelationOid me relid lockmode w w1 :
  LockRelationOid IsSharedRelation me relid lockmode w = Returned tt w1 ->
  holds_lock (lock_table w1) me
    (SetLocktagRelationOid IsSharedRelation me relid) lockmode
  ∧ ∃ w2,
      UnlockRelationOid IsSharedRelation me relid lockmode w1 = Returned tt w2
      ∧ lock_table w2 = lock_table w.
Proof.
  unfold LockRelationOid, UnlockRelationOid.
  set (tag := SetLocktagRelationOid IsSharedRelation me relid).
  unfold mbind, M_bind, mret, M_ret.
  destruct (lock_table w !! lock_key me tag lockmode) as [n|] eqn:Hk.
  - rewrite (LockAcquire_held _ _ _ _ _ _ n Hk). intros [= <-].
    split; [unfold holds_lock, log; simpl; rewrite lookup_insert_eq; eauto|].
    rewrite (LockRelease_regrant me tag lockmode false (log _ _ w)
               (lock_table w) n Hk eq_refl).
    by eexists.
  - destruct (conflicts_with_others (lock_table w) (MyProcPid me) tag lockmode) eqn:Hc.
    + by rewrite (LockAcquire_waits _ _ _ _ _ Hk Hc).
    + rewrite (LockAcquire_granted _ _ _ _ _ _ Hk Hc). intros [= <-].
      split; [unfold holds_lock, log; simpl; rewrite lookup_insert_eq; eauto|].
      rewrite (LockRelease_first me tag lockmode false (log _ _ w)
                 (lock_table w) Hk eq_refl).
      by eexists.
Qed.

(** An unlock always returns, and the only entry of the table it can
    change is the caller's own entry for that relation and strength. *)
Lemma UnlockRelationOid_frame me relid lockmode w :
  let key := lock_key me (SetLocktagRelationOid IsSharedRelation me relid) lockmode in
  ∃ w',
    UnlockRelationOid IsSharedRelation me relid lockmode w = Returned tt w'
    ∧ lock_table w' !! key = one_reference_less (lock_table w !! key)
    ∧ (∀ k, k ≠ key -> lock_table w' !! k = lock_table w !! k).
Proof.
  intros key. unfold UnlockRelationOid, mbind, M_bind, mret, M_ret, LockRelease.
  fold key.
  destruct (lock_table w !! key) as [[n|n|]|] eqn:Hk; eexists;
    (split; [reflexivity|]); simpl.
  - rewrite lookup_insert_eq. split; [done|]. intros k Hne. by rewrite lookup_insert_ne.
  - rewrite lookup_insert_eq. split; [done|]. intros k Hne. by rewrite lookup_insert_ne.
  - rewrite lookup_delete_eq. split; [done|]. intros k Hne. by rewrite lookup_delete_ne.
  - split; [done|]. done.
Qed.

(** Property X1.  Whenever [xact_lock_partitioned_rel] (or
    [xact_lock_rel_data]) returns, the caller holds the strength on the
    relation, and the matching [xact_unlock_partitioned_rel] (or
    [xact_unlock_rel_data]) called next returns with the lock table the
    lock call started from: the same locks with the same reference counts.
    So a lock/unlock pair nested inside a transaction that already holds
    the strength leaves it held. *)
Theorem xact_lock_unlock_round_trip me relid w :
  let tag := SetLocktagRelationOid IsSharedRelation me relid in
  (∀ w1,
     xact_lock_partitioned_rel IsSharedRelation me relid w = Returned tt w1 ->
     holds_lock (lock_table w1) me tag ShareUpdateExclusiveLock
     ∧ ∃ w2,
         xact_unlock_partitioned_rel IsSharedRelation me relid w1 = Returned tt w2
         ∧ lock_table w2 = lock_table w)
  ∧ (∀ w1,
       xact_lock_rel_data IsSharedRelation me relid w = Returned tt w1 ->
       holds_lock (lock_table w1) me tag ShareLock
       ∧ ∃ w2,
           xact_unlock_rel_data IsSharedRelation me relid w1 = Returned tt w2
           ∧ lock_table w2 = lock_table w).
Proof.
  intros tag. split; intros w1 Hlock;
    by apply LockRelationOid_UnlockRelationOid.
Qed.

(** Property X2.  [xact_unlock_partitioned_rel] and [xact_unlock_rel_data]
    always return.  The caller's own entry for the relation and the
    strength loses one reference (and goes away with the last one); every
    other entry of the lock table -- other backends, other relations,
    other strengths -- is left as it was; and when the caller does not
    hold the strength the whole table is unchanged. *)
Theorem xact_unlock_touches_own_entry_only me relid w :
  let tag := SetLocktagRelationOid IsSharedRelation me relid in
  (∃ w',
     xact_unlock_partitioned_rel IsSharedRelation me relid w = Returned tt w'
     ∧ lock_table w' !! lock_key me tag ShareUpdateExclusiveLock =
         one_reference_less (lock_table w !! lock_key me tag ShareUpdateExclusiveLock)
     ∧ (∀ k, k ≠ lock_key me tag ShareUpdateExclusiveLock ->
             lock_table w' !! k = lock_table w !! k)
     ∧ (¬ holds_lock (lock_table w) me tag ShareUpdateExclusiveLock ->
        lock_table w' = lock_table w))
  ∧ (∃ w',
       xact_unlock_rel_data IsSharedRelation me relid w = Returned tt w'
       ∧ lock_table w' !! lock_key me tag ShareLock =
           one_reference_less (lock_table w !! lock_key me tag ShareLock)
       ∧ (∀ k, k ≠ lock_key me tag ShareLock ->
               lock_table w' !! k = lock_table w !! k)
       ∧ (¬ holds_lock (lock_table w) me tag ShareLock ->
          lock_table w' = lock_table w)).
Proof.
  intros tag.
  assert (∀ lockmode, ∃ w',
            UnlockRelationOid IsSharedRelation me relid lockmode w = Returned tt w'
            ∧ lock_table w' !! lock_key me tag lockmode =
                one_reference_less (lock_table w !! lock_key me tag lockmode)
            ∧ (∀ k, k ≠ lock_key me tag lockmode ->
                    lock_table w' !! k = lock_table w !! k)
            ∧ (¬ holds_lock (lock_table w) me tag lockmode ->
               lock_table w' = lock_table w)) as Hany.
  { intros lockmode.
    destruct (UnlockRelationOid_frame me relid lockmode w) as (w' & Hrun & Hown & Hrest).
    exists w'. split; [exact Hrun|]. split; [exact Hown|]. split; [exact Hrest|].
    intros Hfree. apply eq_None_not_Some in Hfree. apply map_eq. intros k.
    destruct (decide (k = lock_key me tag lockmode)) as [->|Hne]; [|by apply Hrest].
    fold tag in Hown. rewrite Hown, Hfree. reflexivity. }
  split; apply Hany.
Qed.

End LockUnlock.

Section ProbeDetails.

Variable IsSharedRelation : Oid -> bool.

(** Property X3.  For any strength, [do_we_hold_the_lock] returns without
    waiting and leaves the lock table as it found it.  It answers [true]
    exactly when the caller holds that very strength on the relation (a
    stronger or weaker one does not count).  Its last branch, the one for
    a refused acquire, is taken exactly when the caller does not hold the
    strength and another backend holds a conflicting one; it then answers
    [false] and, having acquired nothing, releases nothing. *)
Theorem do_we_hold_the_lock_exact me relid lockmode w :
  let tag := SetLocktagRelationOid IsSharedRelation me relid in
  let pid := MyProcPid me in
  ∃ res,
    do_we_hold_the_lock IsSharedRelation me relid lockmode w =
      Returned (bool_decide (res = LOCKACQUIRE_ALREADY_HELD))
        {| lock_table := lock_table w;
           lock_trace := lock_trace w ++
             EvLockAcquire pid tag lockmode true res ::
             (if bool_decide (res = LOCKACQUIRE_NOT_AVAIL) then []
              else [EvLockRelease pid tag lockmode true]) |}
    ∧ (res = LOCKACQUIRE_ALREADY_HELD <->
       holds_lock (lock_table w) me tag lockmode)
    ∧ (res = LOCKACQUIRE_NOT_AVAIL <->
       ¬ holds_lock (lock_table w) me tag lockmode
       ∧ held_by_others (lock_table w) me tag lockmode).
Proof.
  intros tag pid. unfold do_we_hold_the_lock. fold tag.
  unfold mbind, M_bind, mret, M_ret.
  destruct (decide (holds_lock (lock_table w) me tag lockmode)) as [Hheld|Hfree].
  - destruct Hheld as [n Hn]. exists LOCKACQUIRE_ALREADY_HELD.
    rewrite (LockAcquire_held _ _ _ _ _ _ n Hn).
    rewrite (LockRelease_regrant me tag lockmode false (log _ _ w)
               (lock_table w) n Hn eq_refl).
    rewrite log_log. split; [reflexivity|]. split.
    + split; [intros _; by exists n|done].
    + split; [discriminate|]. intros [Hnot _]. destruct Hnot. by exists n.
  - pose proof Hfree as Hnone. apply eq_None_not_Some in Hnone.
    destruct (conflicts_with_others (lock_table w) (MyProcPid me) tag lockmode) eqn:Hc.
    + exists LOCKACQUIRE_NOT_AVAIL.
      rewrite (LockAcquire_refused _ _ _ _ _ Hnone Hc).
      split; [reflexivity|]. split.
      * split; [discriminate|done].
      * split; [|done]. intros _. split; [done|].
        by apply conflicts_with_others_true.
    + exists LOCKACQUIRE_OK.
      rewrite (LockAcquire_granted _ _ _ _ _ _ Hnone Hc).
      rewrite (LockRelease_first me tag lockmode false (log _ _ w)
                 (lock_table w) Hnone eq_refl).
      rewrite log_log. split; [reflexivity|]. split.
      * split; [discriminate|done].
      * split; [discriminate|]. intros [_ Hothers].
        apply conflicts_with_others_false in Hc. by destruct Hc.
Qed.

(** The answer of the probe is a function of the lock table. *)
Lemma xact_bgw_conflicting_lock_exists_by_table me relid wa wb :
  lock_table wa = lock_table wb ->
  result (xact_bgw_conflicting_lock_exists IsSharedRelation me relid wa) =
    result (xact_bgw_conflicting_lock_exists IsSharedRelation me relid wb).
Proof.
  intros Htable. unfold xact_bgw_conflicting_lock_exists.
  destruct (bgw_lock_loop_run IsSharedRelation me relid _
              ShareUpdateExclusiveLock wa eq_refl) as (ba & tra & -> & Hba & _).
  destruct (bgw_lock_loop_run IsSharedRelation me relid _
              ShareUpdateExclusiveLock wb eq_refl) as (bb & trb & -> & Hbb & _).
  simpl. rewrite Htable in Hba. f_equal.
  destruct ba, bb; try done.
  - symmetry. apply Hbb, Hba. done.
  - apply Hba, Hbb. done.
Qed.

Lemma xact_bgw_conflicting_lock_exists_held me relid lockmode w :
  ShareUpdateExclusiveLock <= lockmode <= AccessExclusiveLock ->
  holds_lock (lock_table w) me
    (SetLocktagRelationOid IsSharedRelation me relid) lockmode ->
  result (xact_bgw_conflicting_lock_exists IsSharedRelation me relid w) = Some true.
Proof.
  intros Hrange Hheld. unfold xact_bgw_conflicting_lock_exists.
  destruct (bgw_lock_loop_run IsSharedRelation me relid _
              ShareUpdateExclusiveLock w eq_refl) as (b & tr & -> & Hb & _).
  simpl. f_equal. apply Hb. by exists lockmode.
Qed.

(** Property X4.  [xact_bgw_conflicting_lock_exists] sees the locks the
    coordinator itself takes: called after [xact_lock_partitioned_rel] or
    [xact_lock_rel_data] has returned, it answers [true]; and called after
    the matching unlock it answers what it would have answered before the
    lock was taken. *)
Theorem xact_bgw_conflicting_lock_exists_sees_own_locks me relid w :
  (∀ w1,
     xact_lock_partitioned_rel IsSharedRelation me relid w = Returned tt w1 ->
     result (xact_bgw_conflicting_lock_exists IsSharedRelation me relid w1) = Some true)
  ∧ (∀ w1,
       xact_lock_rel_data IsSharedRelation me relid w = Returned tt w1 ->
       result (xact_bgw_conflicting_lock_exists IsSharedRelation me relid w1) = Some true)
  ∧ (∀ w1 w2,
       xact_lock_partitioned_rel IsSharedRelation me relid w = Returned tt w1 ->
       xact_unlock_partitioned_rel IsSharedRelation me relid w1 = Returned tt w2 ->
       result (xact_bgw_conflicting_lock_exists IsSharedRelation me relid w2) =
         result (xact_bgw_conflicting_lock_exists IsSharedRelation me relid w))
  ∧ (∀ w1 w2,
       xact_lock_rel_data IsSharedRelation me relid w = Returned tt w1 ->
       xact_unlock_rel_data IsSharedRelation me relid w1 = Returned tt w2 ->
       result (xact_bgw_conflicting_lock_exists IsSharedRelation me relid w2) =
         result (xact_bgw_conflicting_lock_exists IsSharedRelation me relid w)).
Proof.
  split; [|split; [|split]].
  - intros w1 Hlock.
    apply LockRelationOid_UnlockRelationOid in Hlock as [Hheld _].
    eapply xact_bgw_conflicting_lock_exists_held; [|exact Hheld]. by vm_compute.
  - intros w1 Hlock.
    apply LockRelationOid_UnlockRelationOid in Hlock as [Hheld _].
    eapply xact_bgw_conflicting_lock_exists_held; [|exact Hheld]. by vm_compute.
  - intros w1 w2 Hlock Hunlock.
    apply LockRelationOid_UnlockRelationOid in Hlock as [_ (w2' & Hrun & Htable)].
    unfold xact_unlock_partitioned_rel in Hunlock. rewrite Hrun in Hunlock.
    injection Hunlock as <-. by apply xact_bgw_conflicting_lock_exists_by_table.
  - intros w1 w2 Hlock Hunlock.
    apply LockRelationOid_UnlockRelationOid in Hlock as [_ (w2' & Hrun & Htable)].
    unfold xact_unlock_rel_data in Hunlock. rewrite Hrun in Hunlock.
    injection Hunlock as <-. by apply xact_bgw_conflicting_lock_exists_by_table.
Qed.

(** The loop stops at the first strength the caller holds. *)
Lemma bgw_lock_loop_stops_at_first_held me relid (n : nat) :
  let tag := SetLocktagRelationOid IsSharedRelation me relid in
  ∀ lockmode w,
    Z.to_nat (AccessExclusiveLock + 1 - lockmode) = n ->
    ∃ b w',
      bgw_lock_loop IsSharedRelation me relid lockmode w = Returned b w'
      ∧ ∃ tr, lock_trace w' = lock_trace w ++ tr
      ∧ ((b = false
          ∧ acquire_levels tr = seqZ lockmode (AccessExclusiveLock + 1 - lockmode))
         ∨ (b = true
            ∧ ∃ m, lockmode <= m <= AccessExclusiveLock
                ∧ holds_lock (lock_table w) me tag m
                ∧ (∀ m', lockmode <= m' < m -> ¬ holds_lock (lock_table w) me tag m')
                ∧ acquire_levels tr = seqZ lockmode (m + 1 - lockmode))).
Proof.
  intros tag. induction n as [|n IH]; intros lockmode w Hn;
    rewrite bgw_lock_loop_unroll.
  - rewrite decide_False by lia. exists false, w. split; [done|].
    exists []. split; [by rewrite app_nil_r|]. left. split; [done|].
    rewrite seqZ_nil by lia. done.
  - rewrite decide_True by lia.
    destruct (do_we_hold_the_lock_run IsSharedRelation me relid lockmode w)
      as (tr1 & Hrun & Hstep).
    fold tag in Hrun, Hstep. rewrite Hrun.
    pose proof (probe_step_levels _ _ _ _ Hstep) as Hlevel.
    destruct (bool_decide (holds_lock (lock_table w) me tag lockmode)) eqn:Hheld.
    + apply bool_decide_eq_true in Hheld.
      eexists true, _. split; [done|]. exists tr1. split; [done|]. right.
      split; [done|]. exists lockmode. split; [lia|]. split; [done|].
      split; [intros; lia|].
      replace (lockmode + 1 - lockmode) with 1 by lia. by rewrite Hlevel.
    + apply bool_decide_eq_false in Hheld.
      destruct (IH (lockmode + 1)
                  {| lock_table := lock_table w; lock_trace := lock_trace w ++ tr1 |})
        as (b & w' & Hloop & tr2 & Htrace & Hcases); [lia|].
      simpl in Htrace, Hcases. exists b, w'. split; [exact Hloop|].
      exists (tr1 ++ tr2). split; [by rewrite Htrace, app_assoc|].
      rewrite acquire_levels_app, Hlevel. simpl.
      destruct Hcases as [[-> Hall]|[-> (m & Hm & Hhm & Hfirst & Hupto)]].
      * left. split; [done|]. rewrite Hall.
        rewrite (seqZ_cons lockmode) by lia. f_equal. f_equal; lia.
      * right. split; [done|]. exists m. split; [lia|]. split; [done|]. split.
        -- intros m' Hm'. destruct (decide (m' = lockmode)) as [->|]; [done|].
           apply Hfirst. lia.
        -- rewrite Hupto. rewrite (seqZ_cons lockmode) by lia. f_equal. f_equal; lia.
Qed.

(** Property X9.  The loop of [xact_bgw_conflicting_lock_exists] returns
    at the first strength the caller holds.  When it answers [true], the
    strengths it tried are exactly [ShareUpdateExclusiveLock] up to the
    lowest strength the caller holds in the probed interval, in order;
    when it answers [false], it tried all five, once each, in order. *)
Theorem xact_bgw_conflicting_lock_exists_stops_early me relid w :
  let tag := SetLocktagRelationOid IsSharedRelation me relid in
  ∃ b w' tr,
    xact_bgw_conflicting_lock_exists IsSharedRelation me relid w = Returned b w'
    ∧ lock_trace w' = lock_trace w ++ tr
    ∧ ((b = false
        ∧ acquire_levels tr =
            [ShareUpdateExclusiveLock; ShareLock; ShareRowExclusiveLock;
             ExclusiveLock; AccessExclusiveLock])
       ∨ (b = true
          ∧ ∃ m, ShareUpdateExclusiveLock <= m <= AccessExclusiveLock
              ∧ holds_lock (lock_table w) me tag m
              ∧ (∀ m', ShareUpdateExclusiveLock <= m' < m ->
                       ¬ holds_lock (lock_table w) me tag m')
              ∧ acquire_levels tr =
                  seqZ ShareUpdateExclusiveLock (m + 1 - ShareUpdateExclusiveLock))).
Proof.
  intros tag.
  destruct (bgw_lock_loop_stops_at_first_held me relid _
              ShareUpdateExclusiveLock w eq_refl)
    as (b & w' & Hrun & tr & Htrace & Hcases).
  exists b, w', tr. split; [exact Hrun|]. split; [exact Htrace|exact Hcases].
Qed.

End ProbeDetails.

(** The strengths that conflict with [ExclusiveLock]: every one but
    [AccessShareLock]. *)
Lemma ExclusiveLock_conflicts (m : LOCKMODE) :
  DoLockModesConflict ExclusiveLock m = true <->
  RowShareLock <= m <= AccessExclusiveLock.
Proof.
  split.
  - intros Hc. destruct (DoLockModesConflict_valid _ _ Hc) as [_ Hm].
    revert Hc. each_lockmode Hm; vm_compute; intros; try discriminate;
      split; discriminate.
  - intros Hm.
    assert (AccessShareLock <= m <= AccessExclusiveLock) as Hvalid
      by (unfold AccessShareLock, RowShareLock in *; lia).
    revert Hm. each_lockmode Hvalid; vm_compute; intros [? ?]; congruence.
Qed.

Section Interference.

Variable IsSharedRelation : Oid -> bool.

(** Property X5.  [xact_is_table_being_modified] always returns and leaves
    the lock table as it found it.  It answers [true] exactly when the
    caller does not hold [ExclusiveLock] on the relation itself and some
    other backend holds on it a strength from [RowShareLock] up to
    [AccessExclusiveLock].  Locks of the caller and [AccessShareLock]s of
    plain readers never make it answer [true]. *)
Theorem xact_is_table_being_modified_by_strength me relid w :
  let tag := SetLocktagRelationOid IsSharedRelation me relid in
  ∃ b w',
    xact_is_table_being_modified IsSharedRelation me relid w = Returned b w'
    ∧ lock_table w' = lock_table w
    ∧ (b = true <->
       ¬ holds_lock (lock_table w) me tag ExclusiveLock
       ∧ ∃ k n, lock_table w !! k = Some n
           ∧ k.1.1 ≠ MyProcPid me ∧ k.1.2 = tag
           ∧ RowShareLock <= k.2 <= AccessExclusiveLock)
    ∧ ((∀ k n, lock_table w !! k = Some n -> k.1.2 = tag ->
               k.1.1 = MyProcPid me ∨ k.2 = AccessShareLock) ->
       b = false).
Proof.
  intros tag.
  destruct (xact_is_table_being_modified_run IsSharedRelation me relid w)
    as (res & Hrun & Hres).
  fold tag in Hrun, Hres.
  assert (held_by_others (lock_table w) me tag ExclusiveLock <->
          ∃ k n, lock_table w !! k = Some n
            ∧ k.1.1 ≠ MyProcPid me ∧ k.1.2 = tag
            ∧ RowShareLock <= k.2 <= AccessExclusiveLock) as Hothers.
  { unfold held_by_others, blocks.
    split; intros (k & n & Hk & Hpid & Htag & Hc); exists k, n;
      (split; [done|split; [done|split; [done|]]]); by apply ExclusiveLock_conflicts. }
  eexists _, _. split; [exact Hrun|]. split; [done|]. split.
  - rewrite bool_decide_eq_true, Hres, Hothers. done.
  - intros Honly. apply bool_decide_eq_false. rewrite Hres, Hothers.
    intros [_ (k & n & Hk & Hpid & Htag & Hmode)].
    destruct (Honly k n Hk Htag) as [|Hshare]; [done|].
    unfold LOCKMODE, AccessShareLock, RowShareLock in *. lia.
Qed.

(** Property X6.  The two locks of the coordinator exclude each other
    across sessions.  In a reachable lock table, while one backend holds
    the partition lock on a relation, [xact_lock_rel_data] of another
    backend on that relation is suspended, and while one backend holds the
    data lock, [xact_lock_partitioned_rel] of another backend is
    suspended.  The data lock itself is shared: [xact_lock_rel_data]
    returns whenever the other backends hold nothing on the relation but
    data locks and readers' locks. *)
Theorem data_lock_and_partition_lock_exclude b1 b2 relid w :
  reachable w ->
  MyProcPid b1 ≠ MyProcPid b2 ->
  SetLocktagRelationOid IsSharedRelation b1 relid =
    SetLocktagRelationOid IsSharedRelation b2 relid ->
  let tag := SetLocktagRelationOid IsSharedRelation b2 relid in
  (holds_lock (lock_table w) b1 tag ShareUpdateExclusiveLock ->
   xact_lock_rel_data IsSharedRelation b2 relid w = Suspended)
  ∧ (holds_lock (lock_table w) b1 tag ShareLock ->
     xact_lock_partitioned_rel IsSharedRelation b2 relid w = Suspended)
  ∧ ((∀ k n, lock_table w !! k = Some n ->
             k.1.1 ≠ MyProcPid b2 -> k.1.2 = tag ->
             k.2 = ShareLock ∨ k.2 = RowShareLock ∨ k.2 = AccessShareLock) ->
     returns (xact_lock_rel_data IsSharedRelation b2 relid w)).
Proof.
  intros Hreach Hpid Htag tag. apply reachable_consistent in Hreach.
  assert (∀ held asked,
            DoLockModesConflict asked held = true ->
            holds_lock (lock_table w) b1 tag held ->
            LockRelationOid IsSharedRelation b2 relid asked w = Suspended) as Hblocked.
  { intros held asked Hc [n1 Hheld].
    assert (held_by_others (lock_table w) b2 tag asked) as Hothers.
    { exists (lock_key b1 tag held), n1. split; [exact Hheld|].
      split; [exact Hpid|]. split; [done|exact Hc]. }
    apply LockRelationOid_suspends. fold tag. split; [|exact Hothers].
    intros Hown. by apply (holder_not_blocked _ _ _ _ Hreach Hown). }
  split; [|split].
  - apply Hblocked. by vm_compute.
  - apply Hblocked. by vm_compute.
  - intros Honly.
    destruct (xact_lock_rel_data IsSharedRelation b2 relid w) eqn:Hrun; [done|].
    apply LockRelationOid_suspends in Hrun as [_ (k & n & Hk & Hkpid & Hktag & Hc)].
    fold tag in Hktag.
    apply ShareLock_conflicts in Hc.
    destruct (Honly k n Hk Hkpid Hktag) as [Hm|[Hm|Hm]]; rewrite Hm in Hc;
      destruct Hc as [Hc|[Hc|[Hc|[Hc|Hc]]]]; discriminate.
Qed.

(** The answer of the held-lock probe depends on the caller's own entries
    for the relation only. *)
Lemma xact_bgw_conflicting_lock_exists_by_own_entries me relid wa wb :
  (∀ m, holds_lock (lock_table wa) me
          (SetLocktagRelationOid IsSharedRelation me relid) m <->
        holds_lock (lock_table wb) me
          (SetLocktagRelationOid IsSharedRelation me relid) m) ->
  result (xact_bgw_conflicting_lock_exists IsSharedRelation me relid wa) =
    result (xact_bgw_conflicting_lock_exists IsSharedRelation me relid wb).
Proof.
  intros Hsame. unfold xact_bgw_conflicting_lock_exists.
  destruct (bgw_lock_loop_run IsSharedRelation me relid _
              ShareUpdateExclusiveLock wa eq_refl) as (ba & tra & -> & Hba & _).
  destruct (bgw_lock_loop_run IsSharedRelation me relid _
              ShareUpdateExclusiveLock wb eq_refl) as (bb & trb & -> & Hbb & _).
  simpl. f_equal.
  assert (ba = true <-> bb = true) as Hiff.
  { rewrite Hba, Hbb. split; intros (m & Hm & Hh); exists m; (split; [done|]);
      by apply Hsame. }
  destruct ba, bb; try done; [symmetry|]; by apply Hiff.
Qed.

(** Property X7.  [SetLocktagRelationOid] gives two requests the same tag
    exactly when they name the same relation and either the relation is
    shared or the two sessions are in the same database.  Requests with
    different tags do not interfere: after one backend has taken the
    partition lock or the data lock on one relation, a request of any
    backend on a relation with a different tag is suspended exactly when
    it would have been before, and both probes answer on it what they
    would have answered before. *)
Theorem SetLocktagRelationOid_separates_relations :
  (∀ b1 b2 r1 r2,
     SetLocktagRelationOid IsSharedRelation b1 r1 =
       SetLocktagRelationOid IsSharedRelation b2 r2 <->
     r1 = r2 ∧ (IsSharedRelation r1 = true ∨ MyDatabaseId b1 = MyDatabaseId b2))
  ∧ (∀ b1 b2 r1 r2 w w1,
       SetLocktagRelationOid IsSharedRelation b1 r1 ≠
         SetLocktagRelationOid IsSharedRelation b2 r2 ->
       xact_lock_partitioned_rel IsSharedRelation b1 r1 w = Returned tt w1
       ∨ xact_lock_rel_data IsSharedRelation b1 r1 w = Returned tt w1 ->
       (xact_lock_partitioned_rel IsSharedRelation b2 r2 w1 = Suspended <->
        xact_lock_partitioned_rel IsSharedRelation b2 r2 w = Suspended)
       ∧ (xact_lock_rel_data IsSharedRelation b2 r2 w1 = Suspended <->
          xact_lock_rel_data IsSharedRelation b2 r2 w = Suspended)
       ∧ result (xact_is_table_being_modified IsSharedRelation b2 r2 w1) =
           result (xact_is_table_being_modified IsSharedRelation b2 r2 w)
       ∧ result (xact_bgw_conflicting_lock_exists IsSharedRelation b2 r2 w1) =
           result (xact_bgw_conflicting_lock_exists IsSharedRelation b2 r2 w)).
Proof.
  split.
  - intros b1 b2 r1 r2. split.
    + intros Heq.
      assert (r1 = r2) as <- by (by injection Heq).
      split; [done|]. by apply SetLocktagRelationOid_eq.
    + intros [<- Hscope]. by apply SetLocktagRelationOid_eq.
  - intros b1 b2 r1 r2 w w1 Htag Hlock.
    set (tag2 := SetLocktagRelationOid IsSharedRelation b2 r2) in *.
    assert (∃ lockmode n,
              lock_table w1 =
                <[lock_key b1 (SetLocktagRelationOid IsSharedRelation b1 r1) lockmode := n]>
                  (lock_table w)) as (lockmode & n & Htable).
    { destruct Hlock as [Hlock|Hlock];
        apply LockRelationOid_returns in Hlock as (n & res & ->); by eexists _, _. }
    assert (∀ m, holds_lock (lock_table w1) b2 tag2 m <->
                 holds_lock (lock_table w) b2 tag2 m) as Hown.
    { intros m. unfold holds_lock. rewrite Htable, lookup_insert_ne; [done|].
      unfold lock_key. congruence. }
    assert (∀ m, held_by_others (lock_table w1) b2 tag2 m <->
                 held_by_others (lock_table w) b2 tag2 m) as Hothers.
    { intros m. rewrite Htable. by apply insert_elsewhere_held_by_others. }
    split; [|split; [|split]].
    + unfold xact_lock_partitioned_rel. rewrite !LockRelationOid_suspends.
      fold tag2. by rewrite Hown, Hothers.
    + unfold xact_lock_rel_data. rewrite !LockRelationOid_suspends.
      fold tag2. by rewrite Hown, Hothers.
    + destruct (xact_is_table_being_modified_run IsSharedRelation b2 r2 w1)
        as (res1 & -> & Hres1).
      destruct (xact_is_table_being_modified_run IsSharedRelation b2 r2 w)
        as (res & -> & Hres).
      fold tag2 in Hres1, Hres. simpl. f_equal.
      rewrite Hown, Hothers, <- Hres in Hres1.
      apply bool_decide_ext. exact Hres1.
    + by apply xact_bgw_conflicting_lock_exists_by_own_entries.
Qed.

Lemma reachable_world_after {A : Type} (c : M A) w :
  made_of_steps c -> reachable w -> reachable (world_after (c w) w).
Proof.
  intros Hc Hreach. unfold world_after.
  destruct (c w) as [a w'|] eqn:Hrun; [|done].
  unfold reachable. etrans; [exact Hreach|]. by eapply Hc.
Qed.


End Interference.

Section LockFrame.

Variable IsSharedRelation : Oid -> bool.

(** One reference more: what a granted request makes of a table entry. *)
Definition one_reference_more (held : option positive) : positive :=
  match held with
  | None => 1%positive
  | Some n => Pos.succ n
  end.

Lemma LockRelationOid_frame me relid lockmode w w1 :
  let key := lock_key me (SetLocktagRelationOid IsSharedRelation me relid) lockmode in
  LockRelationOid IsSharedRelation me relid lockmode w = Returned tt w1 ->
  lock_table w1 !! key = Some (one_reference_more (lock_table w !! key))
  ∧ (∀ k, k ≠ key -> lock_table w1 !! k = lock_table w !! k).
Proof.
  intros key. unfold LockRelationOid, mbind, M_bind, mret, M_ret, LockAcquire.
  fold key.
  destruct (lock_table w !! key) as [n|] eqn:Hk.
  - intros [= <-]. simpl. rewrite lookup_insert_eq. split; [done|].
    intros k Hne. by rewrite lookup_insert_ne.
  - destruct (conflicts_with_others _ _ _ _); [discriminate|].
    intros [= <-]. simpl. rewrite lookup_insert_eq. split; [done|].
    intros k Hne. by rewrite lookup_insert_ne.
Qed.

(** Property X11.  [xact_lock_partitioned_rel] and [xact_lock_rel_data]
    are re-entrant and touch one entry only.  When the caller already
    holds the strength the call returns whatever other backends hold; a
    call that returns adds one reference to the caller's own entry for the
    relation and the strength and leaves every other entry of the lock
    table as it was.  [xact_lock_partitioned_rel] is suspended exactly
    when the caller does not hold the partition lock yet and another
    backend holds on the relation a strength from
    [ShareUpdateExclusiveLock] up to [AccessExclusiveLock]. *)
Theorem xact_lock_adds_one_reference me relid w :
  let tag := SetLocktagRelationOid IsSharedRelation me relid in
  (holds_lock (lock_table w) me tag ShareUpdateExclusiveLock ->
   returns (xact_lock_partitioned_rel IsSharedRelation me relid w))
  ∧ (holds_lock (lock_table w) me tag ShareLock ->
     returns (xact_lock_rel_data IsSharedRelation me relid w))
  ∧ (∀ w1,
       xact_lock_partitioned_rel IsSharedRelation me relid w = Returned tt w1 ->
       lock_table w1 !! lock_key me tag ShareUpdateExclusiveLock =
         Some (one_reference_more
                 (lock_table w !! lock_key me tag ShareUpdateExclusiveLock))
       ∧ (∀ k, k ≠ lock_key me tag ShareUpdateExclusiveLock ->
               lock_table w1 !! k = lock_table w !! k))
  ∧ (∀ w1,
       xact_lock_rel_data IsSharedRelation me relid w = Returned tt w1 ->
       lock_table w1 !! lock_key me tag ShareLock =
         Some (one_reference_more (lock_table w !! lock_key me tag ShareLock))
       ∧ (∀ k, k ≠ lock_key me tag ShareLock ->
               lock_table w1 !! k = lock_table w !! k))
  ∧ (xact_lock_partitioned_rel IsSharedRelation me relid w = Suspended <->
     ¬ holds_lock (lock_table w) me tag ShareUpdateExclusiveLock
     ∧ ∃ k n, lock_table w !! k = Some n
         ∧ k.1.1 ≠ MyProcPid me ∧ k.1.2 = tag
         ∧ ShareUpdateExclusiveLock <= k.2 <= AccessExclusiveLock).
Proof.
  intros tag.
  assert (∀ lockmode,
            holds_lock (lock_table w) me tag lockmode ->
            returns (LockRelationOid IsSharedRelation me relid lockmode w)) as Hreentrant.
  { intros lockmode Hheld.
    destruct (LockRelationOid IsSharedRelation me relid lockmode w) eqn:Hrun; [done|].
    apply LockRelationOid_suspends in Hrun as [Hnot _]. by destruct Hnot. }
  split; [apply Hreentrant|]. split; [apply Hreentrant|].
  split; [intros w1; apply LockRelationOid_frame|].
  split; [intros w1; apply LockRelationOid_frame|].
  unfold xact_lock_partitioned_rel. rewrite LockRelationOid_suspends. fold tag.
  unfold held_by_others, blocks.
  assert (∀ m : LOCKMODE,
            DoLockModesConflict ShareUpdateExclusiveLock m = true <->
            ShareUpdateExclusiveLock <= m <= AccessExclusiveLock) as Hrow.
  { intros m. rewrite ShareUpdateExclusiveLock_conflicts.
    unfold ShareUpdateExclusiveLock, ShareLock, ShareRowExclusiveLock,
      ExclusiveLock, AccessExclusiveLock. lia. }
  split; intros [Hnot (k & n & Hk & Hpid & Htag & Hc)]; (split; [done|]);
    exists k, n; (split; [done|split; [done|split; [done|]]]); by apply Hrow.
Qed.

End LockFrame.

(** * [pathman.h]: the switches of the extension *)

(** The two process globals behind [IsPathmanReady], [IsPathmanEnabled]
    and [DisablePathman]: [pg_pathman_enable] (declared in [pathman.h])
    and [initialization_needed] (declared in [init.h]). *)
Record PathmanFlags : Type := mkPathmanFlags {
  initialization_needed : bool;
  pg_pathman_enable : bool
}.

(** [IsPathmanReady()]. *)
Definition IsPathmanReady (s : PathmanFlags) : bool :=
  negb (initialization_needed s) && pg_pathman_enable s.

(** [IsPathmanEnabled()]. *)
Definition IsPathmanEnabled (s : PathmanFlags) : bool := pg_pathman_enable s.

(** [DisablePathman()]: the two assignments, in order. *)
Definition DisablePathman (s : PathmanFlags) : PathmanFlags :=
  let s1 := {| initialization_needed := initialization_needed s;
               pg_pathman_enable := false |} in
  {| initialization_needed := true; pg_pathman_enable := pg_pathman_enable s1 |}.

(** Property X10.  The extension is ready only when it is enabled.  After
    [DisablePathman] it is neither enabled nor ready, whatever it was
    before, and switching [pg_pathman_enable] back on does not make it
    ready: [IsPathmanReady] stays false for as long as
    [initialization_needed] is not cleared. *)
Theorem DisablePathman_needs_initialization (s : PathmanFlags) :
  (IsPathmanReady s = true -> IsPathmanEnabled s = true)
  ∧ IsPathmanEnabled (DisablePathman s) = false
  ∧ IsPathmanReady (DisablePathman s) = false
  ∧ (∀ enable,
       IsPathmanReady
         {| initialization_needed := initialization_needed (DisablePathman s);
            pg_pathman_enable := enable |} = false)
  ∧ DisablePathman (DisablePathman s) = DisablePathman s.
Proof.
  unfold IsPathmanReady, IsPathmanEnabled, DisablePathman.
  destruct s as [needed enabled]; simpl.
  split; [|by repeat split].
  by intros [_ ?]%andb_true_iff.
Qed.

(** * The further properties at concrete inputs *)

(** The world after [example_session] has taken the partition lock on
    relation 24576. *)
Definition example_world_with_editor : World :=
  world_after
    (xact_lock_partitioned_rel example_IsSharedRelation example_session 24576
       initial_world)
    initial_world.

Lemma example_world_with_editor_reachable : reachable example_world_with_editor.
Proof.
  apply reachable_world_after; [|apply rtc_refl].
  exact (made_of_steps_LockRelationOid example_IsSharedRelation example_session
           24576 ShareUpdateExclusiveLock).
Qed.

(** Property X6 there: the writer's request for the data lock is
    suspended while the other session holds the partition lock. *)
Lemma data_lock_and_partition_lock_exclude_witness :
  reachable example_world_with_editor
  ∧ MyProcPid example_session ≠ MyProcPid example_writer
  ∧ xact_lock_rel_data example_IsSharedRelation example_writer 24576
      example_world_with_editor = Suspended.
Proof.
  assert (MyProcPid example_session ≠ MyProcPid example_writer) as Hpid
    by discriminate.
  split; [exact example_world_with_editor_reachable|]. split; [exact Hpid|].
  apply (proj1 (data_lock_and_partition_lock_exclude example_IsSharedRelation
                  example_session example_writer 24576 example_world_with_editor
                  example_world_with_editor_reachable Hpid eq_refl)).
  exists 1%positive. reflexivity.
Defined.

